(** * Kiwiland railway: a shallow embedding of [railway.py]

    The development follows the layout of the Python module: a small
    model of the interpreter features the class relies on (exceptions,
    [str] helpers, [int()] on strings, insertion-ordered dictionaries),
    then the class [Railway] method by method, then the properties. *)

From Stdlib Require Import ZArith NArith List String Ascii Bool Lia.
Import ListNotations.

Local Open Scope string_scope.
Local Open Scope list_scope.
Local Open Scope Z_scope.

(** ** Exceptions and results *)

(** The exceptions that the methods of [Railway] can let escape. *)
Inductive exn : Type :=
| ValueError
| KeyError
| IndexError
| TypeError
| RecursionError.

(** A Python call either returns a value or raises. *)
Inductive result (A : Type) : Type :=
| Ret (a : A)
| Raise (e : exn).

Arguments Ret {A} a.
Arguments Raise {A} e.

Definition bind {A B : Type} (r : result A) (k : A -> result B) : result B :=
  match r with
  | Ret a => k a
  | Raise e => Raise e
  end.

Notation "x <- e ;; k" := (bind e (fun x => k))
  (at level 61, e at next level, right associativity).

(** A [for] loop whose body may raise: the accumulator is threaded through
    the iterations and the first exception aborts the loop. *)
Fixpoint for_each {A S : Type} (xs : list A) (body : A -> S -> result S)
  (s : S) : result S :=
  match xs with
  | [] => Ret s
  | x :: rest => s' <- body x s ;; for_each rest body s'
  end.

(** ** Strings

    A Python [str] is modelled by [string]; a character stands for the
    code point of the same number (0..255). *)
Module Str.

Definition code (c : ascii) : N := N_of_ascii c.

Definition between (lo hi : N) (c : ascii) : bool :=
  ((lo <=? code c) && (code c <=? hi))%N.

(** [re.match(r'[A-Z]', s)]: the first character of [s] is in A..Z. *)
Definition is_upper (c : ascii) : bool := between 65 90 c.

Definition match_upper (s : string) : bool :=
  match s with
  | String c _ => is_upper c
  | EmptyString => false
  end.

Definition is_digit (c : ascii) : bool := between 48 57 c.

Definition digit_value (c : ascii) : Z := Z.of_N (code c) - 48.

(** The characters [int()] skips around a numeral. *)
Definition int_space (c : ascii) : bool :=
  between 9 13 c || (code c =? 32)%N || (code c =? 133)%N || (code c =? 160)%N.

(** [str.isspace], the characters removed by [str.strip()]. *)
Definition is_space (c : ascii) : bool := int_space c || between 28 31 c.

(** [not s] for a string: the empty string is falsy. *)
Definition falsy (s : string) : bool :=
  match s with
  | EmptyString => true
  | String _ _ => false
  end.

(** [s[i:]] *)
Fixpoint drop (i : nat) (s : string) : string :=
  match i, s with
  | O, _ => s
  | S i', String _ r => drop i' r
  | S _, EmptyString => EmptyString
  end.

(** [s[i]] for an index within bounds, as a string of one character. *)
Definition at_index (i : nat) (s : string) : string := substring i 1 s.

Fixpoint lstrip (s : string) : string :=
  match s with
  | String c r => if is_space c then lstrip r else s
  | EmptyString => EmptyString
  end.

Fixpoint rev_acc (s acc : string) : string :=
  match s with
  | String c r => rev_acc r (String c acc)
  | EmptyString => acc
  end.

Definition rev (s : string) : string := rev_acc s EmptyString.

(** [s.strip()] *)
Definition strip (s : string) : string := rev (lstrip (rev (lstrip s))).

(** [s.split(',')]: always at least one field. *)
Fixpoint split_acc (s : string) (field : string) : list string :=
  match s with
  | EmptyString => [rev field]
  | String c r =>
      if Ascii.eqb c "," then rev field :: split_acc r EmptyString
      else split_acc r (String c field)
  end.

Definition split_comma (s : string) : list string := split_acc s EmptyString.

(** *** [int(s)] in base ten

    Optional blanks, an optional sign, decimal digits in which single
    underscores may separate digits, optional blanks. *)
Fixpoint skip_int_space (s : string) : string :=
  match s with
  | String c r => if int_space c then skip_int_space r else s
  | EmptyString => EmptyString
  end.

Fixpoint scan_digits (s : string) (acc : Z) (prev_underscore : bool)
  : option (Z * string) :=
  match s with
  | String c r =>
      if is_digit c then scan_digits r (10 * acc + digit_value c) false
      else if Ascii.eqb c "_" then
        if prev_underscore then None else scan_digits r acc true
      else if prev_underscore then None else Some (acc, s)
  | EmptyString => if prev_underscore then None else Some (acc, s)
  end.

Definition split_sign (s : string) : Z * string :=
  match s with
  | String c r =>
      if Ascii.eqb c "-" then (-1, r)
      else if Ascii.eqb c "+" then (1, r)
      else (1, s)
  | EmptyString => (1, s)
  end.

Definition int (s : string) : result Z :=
  let '(sign, body) := split_sign (skip_int_space s) in
  match body with
  | String c _ =>
      if is_digit c then
        match scan_digits body 0 false with
        | Some (n, rest) =>
            match skip_int_space rest with
            | EmptyString => Ret (sign * n)
            | String _ _ => Raise ValueError
            end
        | None => Raise ValueError
        end
      else Raise ValueError
  | EmptyString => Raise ValueError
  end.

(** The value of a string of decimal digits, most significant first. *)
Fixpoint decimal_acc (s : string) (acc : Z) : Z :=
  match s with
  | String c r => decimal_acc r (10 * acc + digit_value c)
  | EmptyString => acc
  end.

Definition decimal (s : string) : Z := decimal_acc s 0.

Fixpoint all_digits (s : string) : bool :=
  match s with
  | String c r => is_digit c && all_digits r
  | EmptyString => true
  end.

End Str.

(** ** Dictionaries

    A Python [dict] keeps its keys in insertion order, and the searches
    iterate over it, so it is an association list without repeated keys:
    assigning to a present key keeps its position, a new key goes last. *)
Module Dict.
Section Dict.
Context {V : Type}.

Definition t : Type := list (string * V).

(** [d[k]], [None] standing for the absent key. *)
Fixpoint get (k : string) (d : t) : option V :=
  match d with
  | [] => None
  | (k', v) :: rest => if String.eqb k k' then Some v else get k rest
  end.

(** [k in d] *)
Definition mem (k : string) (d : t) : bool :=
  match get k d with
  | Some _ => true
  | None => false
  end.

(** [d[k] = v] *)
Fixpoint set (k : string) (v : V) (d : t) : t :=
  match d with
  | [] => [(k, v)]
  | (k', v') :: rest =>
      if String.eqb k k' then (k', v) :: rest else (k', v') :: set k v rest
  end.

Definition keys (d : t) : list string := map fst d.
End Dict.
Arguments t V : clear implicits.
End Dict.

(** ** The route map *)

Definition station : Type := string.

(** [Railway.routes]: origin, then destination, then distance. *)
Definition graph : Type := Dict.t (Dict.t Z).

(** [Railway.validate_and_parse_route(route)]; [None] is Python's [None]. *)
Definition validate_and_parse_route (route : option string)
  : result (station * station * Z) :=
  match route with
  | None => Raise ValueError
  | Some route =>
      if Str.falsy route || (String.length route <? 3)%nat then Raise ValueError
      else
        let origin := Str.at_index 0 route in
        let destination := Str.at_index 1 route in
        distance <- Str.int (Str.drop 2 route) ;;
        if negb (Str.match_upper origin) || negb (Str.match_upper destination)
        then Raise ValueError
        else Ret (origin, destination, distance)
  end.

(** *** The class attribute and the instances

    [routes = {}] is evaluated once, in the class body: the dictionary is
    an attribute of the class.  [__init__] binds no attribute on [self],
    so an instance is an object with an empty [__dict__], and [self.routes]
    resolves, for every instance, to that one dictionary.  The interpreter
    state that matters is therefore the content of the class dictionary. *)
Record interpreter : Type := {
  class_routes : graph;   (* the dict bound to [Railway.routes] *)
  next_object : nat       (* identity of the next object allocated *)
}.

Record railway : Type := { object_id : nat }.

(** [self.routes] *)
Definition self_routes (st : interpreter) (self : railway) : graph :=
  class_routes st.

(** The body of the loop of [add_routes], on the dictionary [self.routes]. *)
Definition add_route (routes : graph) (origin destination : station)
  (distance : Z) : graph :=
  let routes :=
    if negb (Dict.mem origin routes) then Dict.set origin [] routes else routes in
  let routes :=
    if negb (Dict.mem destination routes) then Dict.set destination [] routes
    else routes in
  match Dict.get origin routes with
  | Some from_origin =>
      Dict.set origin (Dict.set destination distance from_origin) routes
  | None => routes
  end.

(** [add_routes] on the dictionary: the routes before a malformed one are
    already stored when the exception leaves the loop. *)
Fixpoint add_routes_dict (routes : graph) (route_list : list string)
  : graph * result unit :=
  match route_list with
  | [] => (routes, Ret tt)
  | route :: rest =>
      match validate_and_parse_route (Some route) with
      | Raise e => (routes, Raise e)
      | Ret (origin, destination, distance) =>
          add_routes_dict (add_route routes origin destination distance) rest
      end
  end.

(** [Railway.add_routes(self, route_list)] *)
Definition add_routes (st : interpreter) (self : railway)
  (route_list : list string) : interpreter * result unit :=
  let '(routes, r) := add_routes_dict (self_routes st self) route_list in
  ({| class_routes := routes; next_object := next_object st |}, r).

(** The argument of the constructor. *)
Inductive routes_arg : Type :=
| ArgStr (routes : string)
| ArgList (routes : list string)
| ArgOther.

(** [Railway(routes)]: allocation of the instance, then [__init__]. *)
Definition Railway (st : interpreter) (routes : routes_arg)
  : interpreter * result railway :=
  let self := {| object_id := next_object st |} in
  let st := {| class_routes := class_routes st;
               next_object := S (next_object st) |} in
  match routes with
  | ArgStr routes =>
      let route_list := map Str.strip (Str.split_comma routes) in
      let '(st, r) := add_routes st self route_list in
      (st, _ <- r ;; Ret self)
  | ArgList routes =>
      let route_list := map Str.strip routes in
      let '(st, r) := add_routes st self route_list in
      (st, _ <- r ;; Ret self)
  | ArgOther => (st, Raise ValueError)
  end.

(** The interpreter after the module is imported: [routes = {}]. *)
Definition startup : interpreter := {| class_routes := []; next_object := O |}.

(** The dictionary a list of routes builds from the empty one. *)
Definition graph_of (route_list : list string) : graph :=
  fst (add_routes_dict [] route_list).

(** ** The queries

    The four queries only read [self.routes]; they are functions of that
    dictionary.  The recursive searches are not structurally recursive:
    [fuel] is the depth of calls the interpreter allows, and a call that
    needs more raises [RecursionError]. *)

(** [not x] for the value returned by [get_route_distance]. *)
Definition falsy_distance (x : option Z) : bool :=
  match x with
  | None => true
  | Some n => n =? 0
  end.

(** [Railway.get_route_distance(self, origin, *destinations)] *)
Fixpoint get_route_distance (routes : graph) (origin : station)
  (destinations : list station) : result (option Z) :=
  match destinations with
  | [] => Raise IndexError
  | destination :: more =>
      if Str.falsy origin || Str.falsy destination then Raise ValueError
      else
        match Dict.get origin routes with
        | None => Raise KeyError
        | Some from_origin =>
            match Dict.get destination from_origin with
            | None => Ret None
            | Some distance =>
                match more with
                | _ :: _ =>
                    next_stop_distance <-
                      get_route_distance routes destination more ;;
                    if falsy_distance next_stop_distance then Ret None
                    else
                      match next_stop_distance with
                      | Some n => Ret (Some (distance + n))
                      | None => Raise TypeError
                      end
                | [] => Ret (Some distance)
                end
            end
        end
  end.

Module FindModes.
Inductive t : Type := max | exact.

Definition eqb (a b : t) : bool :=
  match a, b with
  | max, max | exact, exact => true
  | _, _ => false
  end.
End FindModes.

(** A route found by [find_routes_by_stops]: the tuple [(path, distance)]. *)
Definition stop_route : Type := list station * Z.

(** [Railway.find_routes_by_stops(self, origin, destination, stops, mode)],
    for an [int] argument [stops]. *)
Fixpoint find_routes_by_stops (fuel : nat) (routes : graph)
  (origin destination : station) (stops : Z) (mode : FindModes.t)
  : result (list stop_route) :=
  match fuel with
  | O => Raise RecursionError
  | S fuel =>
      if Str.falsy origin || Str.falsy destination then Raise ValueError
      else
        match Dict.get origin routes with
        | None => Raise KeyError
        | Some from_origin =>
            let search (_ : unit) : result (list stop_route) :=
              if negb (stops =? 1) && (List.length from_origin =? 0)%nat then Ret []
              else
                for_each from_origin
                  (fun '(next_stop, distance) found =>
                     subroutes <-
                       find_routes_by_stops fuel routes next_stop destination
                         (stops - 1) mode ;;
                     Ret (found ++
                          map (fun '(path, subroute) =>
                                 (origin :: path, distance + subroute))
                              subroutes))
                  []
            in
            if (FindModes.eqb mode FindModes.max && (stops >=? 1))
               || (FindModes.eqb mode FindModes.exact && (stops =? 1))
            then
              match Dict.get destination from_origin with
              | Some distance => Ret [([origin; destination], distance)]
              | None =>
                  if FindModes.eqb mode FindModes.exact then Ret []
                  else search tt
              end
            else search tt
        end
  end.

(** An element of a route found by [find_routes_by_distance]: the list
    holds the stations and, last, the total distance. *)
Inductive item : Type :=
| Stop (s : station)
| Total (n : Z).

(** [route[-1] += distance] *)
Fixpoint add_to_last (distance : Z) (route : list item) : result (list item) :=
  match route with
  | [] => Raise IndexError
  | [Total n] => Ret [Total (n + distance)]
  | [Stop _] => Raise TypeError
  | x :: rest => rest' <- add_to_last distance rest ;; Ret (x :: rest')
  end.

(** [Railway.find_routes_by_distance(self, origin, destination, max_distance)],
    for an [int] argument [max_distance]. *)
Fixpoint find_routes_by_distance (fuel : nat) (routes : graph)
  (origin destination : station) (max_distance : Z)
  : result (list (list item)) :=
  match fuel with
  | O => Raise RecursionError
  | S fuel =>
      if Str.falsy origin || Str.falsy destination then Raise ValueError
      else
        match Dict.get origin routes with
        | None => Raise KeyError
        | Some from_origin =>
            for_each from_origin
              (fun '(stop, distance) found =>
                 let found :=
                   if String.eqb stop destination && (distance <? max_distance)
                   then found ++ [[Stop origin; Stop stop; Total distance]]
                   else found in
                 if max_distance - distance >? 0 then
                   subroutes <-
                     find_routes_by_distance fuel routes stop destination
                       (max_distance - distance) ;;
                   for_each subroutes
                     (fun subroute found =>
                        match subroute with
                        | [] => Ret found
                        | _ :: _ =>
                            route <- add_to_last distance (Stop origin :: subroute) ;;
                            Ret (found ++ [route])
                        end)
                     found
                 else Ret found)
              []
        end
  end.

(** The value of [shortest_distance]: an [int] or [float('inf')]. *)
Inductive number : Type :=
| Int (n : Z)
| Inf.

(** [distance < shortest_distance] *)
Definition less_than (distance : Z) (shortest_distance : number) : bool :=
  match shortest_distance with
  | Int n => distance <? n
  | Inf => true
  end.

(** [min(shortest_distance, distance)] *)
Definition min_number (shortest_distance : number) (distance : Z) : number :=
  match shortest_distance with
  | Int n => if distance <? n then Int distance else Int n
  | Inf => Int distance
  end.

(** An entry of [nodes_to_visit]: [(o, d, distance_to_origin)]. *)
Definition node : Type := station * station * Z.

(** [l.pop()]: the last element, and the list without it. *)
Fixpoint pop {A : Type} (l : list A) : option (list A * A) :=
  match l with
  | [] => None
  | x :: rest =>
      match pop rest with
      | None => Some ([], x)
      | Some (rest', y) => Some (x :: rest', y)
      end
  end.

(** The body of the [while] loop of [shortest_route], after the [pop]. *)
Definition visit (routes : graph) (destination : station)
  (nodes_to_visit : list node) (shortest_distance : number) (n : node)
  : result (list node * number) :=
  let '(o, d, distance_to_origin) := n in
  match Dict.get o routes with
  | None => Raise KeyError
  | Some from_o =>
      match Dict.get d from_o with
      | None => Raise KeyError
      | Some edge =>
          let distance := edge + distance_to_origin in
          if less_than distance shortest_distance then
            match Dict.get d routes with
            | None => Raise KeyError
            | Some from_d =>
                let nodes_to_visit :=
                  fold_left
                    (fun nodes (_ : station) =>
                       nodes ++ map (fun stop => (d, stop, distance))
                                    (Dict.keys from_d))
                    (Dict.keys from_d) nodes_to_visit in
                let shortest_distance :=
                  if String.eqb d destination
                  then min_number shortest_distance distance
                  else shortest_distance in
                Ret (nodes_to_visit, shortest_distance)
            end
          else Ret (nodes_to_visit, shortest_distance)
      end
  end.

(** The [while] loop: [None] when it is still running after [fuel]
    iterations. *)
Fixpoint while_nodes (fuel : nat) (routes : graph) (destination : station)
  (nodes_to_visit : list node) (shortest_distance : number)
  : option (result number) :=
  match pop nodes_to_visit with
  | None => Some (Ret shortest_distance)
  | Some (nodes_to_visit, n) =>
      match fuel with
      | O => None
      | S fuel =>
          match visit routes destination nodes_to_visit shortest_distance n with
          | Raise e => Some (Raise e)
          | Ret (nodes_to_visit, shortest_distance) =>
              while_nodes fuel routes destination nodes_to_visit
                shortest_distance
          end
      end
  end.

(** [Railway.shortest_route(self, origin, destination)], the loop being
    given [fuel] iterations. *)
Definition shortest_route (fuel : nat) (routes : graph)
  (origin destination : station) : option (result number) :=
  if Str.falsy origin || Str.falsy destination then Some (Raise ValueError)
  else
    match Dict.get origin routes with
    | None => Some (Raise KeyError)
    | Some from_origin =>
        let shortest_distance :=
          match Dict.get destination from_origin with
          | Some distance => Int distance
          | None => Inf
          end in
        let nodes_to_visit :=
          map (fun stop => (origin, stop, 0)) (Dict.keys from_origin) in
        while_nodes fuel routes destination nodes_to_visit shortest_distance
    end.

(** ** The maps of the test suite *)

(** The map of [railway_sample_data_test.py]. *)
Definition reference_map : graph :=
  graph_of ["AB5"; "BC4"; "CD8"; "DC8"; "DE6"; "AD5"; "CE2"; "EB3"; "AE7"].

(** The map of [railway_test.py]. *)
Definition test_map : graph := graph_of ["AB1"; "AC2"; "CA4"].

(** ** Notions used to state the properties *)

(** The sum of the consecutive edge distances along [origin, stops...];
    [None] when some consecutive pair has no edge. *)
Fixpoint walk_distance (routes : graph) (origin : station)
  (stops : list station) : option Z :=
  match stops with
  | [] => Some 0
  | next :: more =>
      match Dict.get origin routes with
      | Some from_origin =>
          match Dict.get next from_origin, walk_distance routes next more with
          | Some distance, Some rest => Some (distance + rest)
          | _, _ => None
          end
      | None => None
      end
  end.

(** No key occurs twice: the association list stands for a [dict]. *)
Fixpoint unique_keys {V : Type} (d : Dict.t V) : bool :=
  match d with
  | [] => true
  | (k, _) :: rest => negb (Dict.mem k rest) && unique_keys rest
  end.

(** What [add_routes] maintains on [Railway.routes]: it is a dictionary of
    dictionaries, no station is the empty string, and every destination
    has an entry of its own. *)
Definition well_formed (routes : graph) : bool :=
  unique_keys routes
  && forallb
       (fun '(origin, from_origin) =>
          negb (Str.falsy origin)
          && unique_keys from_origin
          && forallb (fun '(destination, _) => Dict.mem destination routes)
               from_origin)
       routes.

(** Every edge distance is strictly positive. *)
Definition positive (routes : graph) : bool :=
  forallb (fun '(_, from_origin) => forallb (fun '(_, d) => 0 <? d) from_origin)
    routes.

(** A route of [find_routes_by_distance] that goes from [origin] to
    [destination] along edges of the map, ends with the sum of their
    distances, and stays strictly below [max_distance]. *)
Definition good_route (routes : graph) (origin destination : station)
  (max_distance : Z) (route : list item) : Prop :=
  exists (stops : list station) (total : Z),
    route = map Stop (origin :: stops) ++ [Total total]
    /\ stops <> []
    /\ last stops origin = destination
    /\ walk_distance routes origin stops = Some total
    /\ total < max_distance.

(** The reading of the stop-bounded search under which every walk of one
    to [stops] edges from [origin] to [destination] is among the results. *)
Definition reports_every_walk (routes : graph) (origin destination : station)
  (stops : Z) : Prop :=
  exists fuel found,
    find_routes_by_stops fuel routes origin destination stops FindModes.max
    = Ret found
    /\ forall (path : list station) (total : Z),
         path <> [] ->
         last path origin = destination ->
         Z.of_nat (List.length path) <= stops ->
         walk_distance routes origin path = Some total ->
         In (origin :: path, total) found.


(** A map on which the station C is two edges away from A, behind D, while
    the edge entered last at A leads into the cycle A -> B -> A. *)
Definition detour_map : graph := graph_of ["AD1"; "DC1"; "AB1"; "BA1"].

(** A map with a leg of distance zero. *)
Definition zero_leg_map : graph := graph_of ["AB5"; "BC0"].

(** The states in which the next node to visit lies on a cycle of three
    stations [a -> b -> c -> a] and no route has been found yet. *)
Definition on_cycle3 (a b c : station) (nodes : list node) (shortest : number)
  : Prop :=
  shortest = Inf
  /\ exists rest k,
       nodes = rest ++ [(a, b, k)] \/ nodes = rest ++ [(b, c, k)]
       \/ nodes = rest ++ [(c, a, k)].

(** The same for a cycle of two stations [a -> b -> a]. *)
Definition on_cycle2 (a b : station) (nodes : list node) (shortest : number)
  : Prop :=
  shortest = Inf
  /\ exists rest k, nodes = rest ++ [(a, b, k)] \/ nodes = rest ++ [(b, a, k)].

(** [origin, stops...] is a walk of the map with at least one edge that
    ends at [destination], of total distance [total]. *)
Definition walk_to (routes : graph) (origin destination : station)
  (stops : list station) (total : Z) : Prop :=
  stops <> []
  /\ last stops origin = destination
  /\ walk_distance routes origin stops = Some total.

(** An entry [(o, d, k)] of [nodes_to_visit] whose station [o] is reached
    from the origin by a walk of distance [k]. *)
Definition reached (routes : graph) (origin : station) (n : node) : Prop :=
  let '(o, d, k) := n in
  exists pre, last pre origin = o /\ walk_distance routes origin pre = Some k.

(** The walk [origin, stops...] goes through an edge that waits in
    [nodes_to_visit] with the distance of the walk up to that edge. *)
Definition pending (routes : graph) (origin : station) (stops : list station)
  (nodes : list node) : Prop :=
  exists pre d post k,
    stops = pre ++ d :: post
    /\ walk_distance routes origin pre = Some k
    /\ In (last pre origin, d, k) nodes.

(** What the loop of [shortest_route] maintains: the entries are reached,
    the bound is the distance of a walk to the destination, and every walk
    to the destination that is shorter than the bound is still pending. *)
Definition search_invariant (routes : graph) (origin destination : station)
  (nodes : list node) (shortest : number) : Prop :=
  Forall (reached routes origin) nodes
  /\ match shortest with
     | Inf => True
     | Int n => exists stops, walk_to routes origin destination stops n
     end
  /\ forall stops total,
       walk_to routes origin destination stops total ->
       less_than total shortest = true ->
       pending routes origin stops nodes.

(** [routes[origin][destination]], [None] when a key is missing. *)
Definition edge_distance (routes : graph) (origin destination : station)
  : option Z :=
  match Dict.get origin routes with
  | Some from_origin => Dict.get destination from_origin
  | None => None
  end.

(** [', '.join(tokens)], the form in which the command line gives a map. *)
Fixpoint comma_join (tokens : list string) : string :=
  match tokens with
  | [] => ""
  | [token] => token
  | token :: rest => (token ++ ", " ++ comma_join rest)%string
  end.

(** No comma in a token. *)
Fixpoint comma_free (s : string) : bool :=
  match s with
  | String c r => negb (Ascii.eqb c ",") && comma_free r
  | EmptyString => true
  end.

(** A result of [find_routes_by_stops] that goes from [origin] to
    [destination] along edges of the map, comes with the sum of their
    distances, and has at most ([max]) or exactly ([exact]) [stops] edges. *)
Definition good_stop_route (routes : graph) (origin destination : station)
  (stops : Z) (mode : FindModes.t) (route : stop_route) : Prop :=
  exists path,
    fst route = origin :: path
    /\ path <> []
    /\ last path origin = destination
    /\ walk_distance routes origin path = Some (snd route)
    /\ match mode with
       | FindModes.max => 1 <= Z.of_nat (List.length path) <= stops
       | FindModes.exact => Z.of_nat (List.length path) = stops
       end.

(** No station of the walk [origin, path...], its last two set aside, has
    an edge of its own to [destination]. *)
Fixpoint no_shortcut (routes : graph) (destination origin : station)
  (path : list station) : Prop :=
  match path with
  | [] => True
  | next :: rest =>
      match rest with
      | [] => True
      | _ :: _ =>
          edge_distance routes origin destination = None
          /\ no_shortcut routes destination next rest
      end
  end.

(** The list of nodes after an expansion, as one list. *)
Ltac flatten_nodes :=
  cbn [Dict.keys map fst fold_left]; rewrite <- ?app_assoc; cbn [app].

(** * Properties *)

(** ** The test suite, replayed on the model *)

Example parse_AE5 : validate_and_parse_route (Some "AE5") = Ret ("A", "E", 5).
Proof. reflexivity. Qed.

Example parse_failures :
  map validate_and_parse_route
      [None; Some ""; Some "A"; Some "A 5"; Some "DED"; Some "zA4"; Some "A$4"]
  = repeat (Raise ValueError) 7.
Proof. reflexivity. Qed.

Example test_map_value :
  test_map = [("A", [("B", 1); ("C", 2)]); ("B", []); ("C", [("A", 4)])].
Proof. reflexivity. Qed.

Example reference_map_value :
  reference_map
  = [("A", [("B", 5); ("D", 5); ("E", 7)]); ("B", [("C", 4)]);
     ("C", [("D", 8); ("E", 2)]); ("D", [("C", 8); ("E", 6)]);
     ("E", [("B", 3)])].
Proof. reflexivity. Qed.

Example sample_distances :
  map (fun '(o, ds) => get_route_distance reference_map o ds)
      [("A", ["B"; "C"]); ("A", ["D"]); ("A", ["D"; "C"]);
       ("A", ["E"; "B"; "C"; "D"]); ("A", ["E"; "D"])]
  = [Ret (Some 9); Ret (Some 5); Ret (Some 13); Ret (Some 22); Ret None].
Proof. reflexivity. Qed.

Example sample_stops_at_most :
  find_routes_by_stops 4 reference_map "C" "C" 3 FindModes.max
  = Ret [(["C"; "D"; "C"], 16); (["C"; "E"; "B"; "C"], 9)].
Proof. reflexivity. Qed.

Example sample_stops_exactly :
  find_routes_by_stops 5 reference_map "A" "C" 4 FindModes.exact
  = Ret [(["A"; "B"; "C"; "D"; "C"], 25); (["A"; "D"; "C"; "D"; "C"], 29);
         (["A"; "D"; "E"; "B"; "C"], 18)].
Proof. reflexivity. Qed.

Example sample_shortest :
  shortest_route 200 reference_map "A" "C" = Some (Ret (Int 9))
  /\ shortest_route 200 reference_map "B" "B" = Some (Ret (Int 9)).
Proof. split; vm_compute; reflexivity. Qed.

Example test_shortest :
  let routes := graph_of ["AB1"; "AC2"; "CA4"; "CD1"; "DA1"] in
  shortest_route 50 routes "A" "B" = Some (Ret (Int 1))
  /\ shortest_route 50 routes "B" "C" = Some (Ret Inf)
  /\ shortest_route 50 routes "C" "A" = Some (Ret (Int 2)).
Proof. repeat split; vm_compute; reflexivity. Qed.

Example test_distance_bounded :
  find_routes_by_distance 3 test_map "A" "B" (-1) = Ret []
  /\ find_routes_by_distance 3 test_map "A" "B" 0 = Ret []
  /\ find_routes_by_distance 3 test_map "A" "B" 2
     = Ret [[Stop "A"; Stop "B"; Total 1]]
  /\ find_routes_by_distance 16 test_map "A" "C" 15
     = Ret [[Stop "A"; Stop "C"; Total 2];
            [Stop "A"; Stop "C"; Stop "A"; Stop "C"; Total 8];
            [Stop "A"; Stop "C"; Stop "A"; Stop "C"; Stop "A"; Stop "C";
             Total 14]].
Proof. repeat split; vm_compute; reflexivity. Qed.

(** ** Parsing *)

Section Characters.

Lemma digit_not_space (c : ascii) :
  Str.is_digit c = true -> Str.int_space c = false.
Proof.
  destruct c as [[] [] [] [] [] [] [] []]; vm_compute; congruence.
Qed.

Lemma digit_not_mark (c : ascii) :
  Str.is_digit c = true ->
  Ascii.eqb c "-" = false /\ Ascii.eqb c "+" = false /\ Ascii.eqb c "_" = false.
Proof.
  destruct c as [[] [] [] [] [] [] [] []]; vm_compute; intuition congruence.
Qed.

Lemma digit_value_range (c : ascii) :
  Str.is_digit c = true -> 0 <= Str.digit_value c <= 9.
Proof.
  destruct c as [[] [] [] [] [] [] [] []]; vm_compute;
    intuition congruence.
Qed.

End Characters.

Lemma scan_digits_all (s : string) :
  Str.all_digits s = true ->
  forall acc, Str.scan_digits s acc false = Some (Str.decimal_acc s acc, "").
Proof.
  induction s as [|c r IH]; intros Hd acc; simpl in *.
  - reflexivity.
  - apply andb_prop in Hd as [Hc Hr]. rewrite Hc. now apply IH.
Qed.

Lemma decimal_acc_nonneg (s : string) :
  Str.all_digits s = true ->
  forall acc, 0 <= acc -> 0 <= Str.decimal_acc s acc.
Proof.
  induction s as [|c r IH]; intros Hd acc Hacc;
    cbn [Str.decimal_acc Str.all_digits] in *.
  - exact Hacc.
  - apply andb_prop in Hd as [Hc Hr]. apply IH; [exact Hr|].
    pose proof (digit_value_range c Hc). lia.
Qed.

(** [int()] reads a numeral made of decimal digits as its value. *)
Lemma int_of_digits (s : string) :
  s <> "" -> Str.all_digits s = true -> Str.int s = Ret (Str.decimal s).
Proof.
  intros Hne Hd. destruct s as [|c r]; [congruence|].
  pose proof Hd as Hd'. simpl in Hd'. apply andb_prop in Hd' as [Hc Hr].
  destruct (digit_not_mark c Hc) as (Hm & Hp & _).
  unfold Str.int. simpl Str.skip_int_space. rewrite (digit_not_space c Hc).
  unfold Str.split_sign. rewrite Hm, Hp, Hc.
  rewrite (scan_digits_all _ Hd). cbn [Str.skip_int_space].
  unfold Str.decimal. f_equal; lia.
Qed.

(** ... and the same numeral after a minus sign as the opposite value. *)
Lemma int_of_minus_digits (s : string) :
  s <> "" -> Str.all_digits s = true ->
  Str.int (String "-" s) = Ret (- Str.decimal s).
Proof.
  intros Hne Hd. destruct s as [|c r]; [congruence|].
  pose proof Hd as Hd'. simpl in Hd'. apply andb_prop in Hd' as [Hc Hr].
  unfold Str.int. change (Str.skip_int_space (String "-" (String c r)))
    with (String "-" (String c r)).
  change (Str.split_sign (String "-" (String c r))) with (-1, String c r).
  cbv iota beta. rewrite Hc, (scan_digits_all _ Hd). cbn [Str.skip_int_space].
  unfold Str.decimal. f_equal; lia.
Qed.

Lemma int_raises_value_error (s : string) (e : exn) :
  Str.int s = Raise e -> e = ValueError.
Proof.
  unfold Str.int. destruct (Str.split_sign _) as [sign body].
  destruct body as [|c r]; [congruence|].
  destruct (Str.is_digit c); [|congruence].
  destruct (Str.scan_digits _ _ _) as [[n rest]|]; [|congruence].
  destruct (Str.skip_int_space rest); congruence.
Qed.

Lemma validate_unfold (c0 c1 c2 : ascii) (r : string) :
  validate_and_parse_route (Some (String c0 (String c1 (String c2 r))))
  = distance <- Str.int (String c2 r) ;;
    if negb (Str.is_upper c0) || negb (Str.is_upper c1)
    then Raise ValueError
    else Ret (String c0 "", String c1 "", distance).
Proof. reflexivity. Qed.

Lemma validate_short (route : option string) :
  (forall c0 c1 c2 r, route <> Some (String c0 (String c1 (String c2 r)))) ->
  validate_and_parse_route route = Raise ValueError.
Proof.
  intros Hshort. destruct route as [[|c0 [|c1 [|c2 r]]]|]; try reflexivity.
  now elim (Hshort c0 c1 c2 r).
Qed.

(** C5, as stated, fails: the token "AB-5" carries a negative distance, yet
    [validate_and_parse_route] accepts it and returns ("A", "B", -5) instead
    of raising [ValueError]. *)
Lemma validate_and_parse_route_negative_distance :
  validate_and_parse_route (Some "AB-5") = Ret ("A", "B", -5)
  /\ validate_and_parse_route (Some "AB-5") <> Raise ValueError.
Proof. split; [reflexivity | discriminate]. Qed.

(** C5, amended: [validate_and_parse_route] returns (token[0], token[1], d)
    exactly when the token has at least three characters, its first two
    characters are uppercase ASCII letters and [int()] reads the remaining
    characters as the integer d; in every other case it raises [ValueError].
    A remainder made of decimal digits gives its (non-negative) value, and
    the same digits after a minus sign give the opposite, negative or zero,
    value: the sign of the distance is not checked. *)
Theorem validate_and_parse_route_accepts (route : option string) :
  (forall origin destination distance,
      validate_and_parse_route route = Ret (origin, destination, distance)
      <->
      exists c0 c1 rest,
        route = Some (String c0 (String c1 rest))
        /\ rest <> ""
        /\ Str.is_upper c0 = true /\ Str.is_upper c1 = true
        /\ Str.int rest = Ret distance
        /\ origin = String c0 "" /\ destination = String c1 "")
  /\ ((forall r, validate_and_parse_route route <> Ret r) ->
      validate_and_parse_route route = Raise ValueError)
  /\ (forall c0 c1 digits,
         Str.is_upper c0 = true -> Str.is_upper c1 = true ->
         digits <> "" -> Str.all_digits digits = true ->
         (route = Some (String c0 (String c1 digits)) ->
          validate_and_parse_route route
          = Ret (String c0 "", String c1 "", Str.decimal digits)
          /\ 0 <= Str.decimal digits)
         /\ (route = Some (String c0 (String c1 (String "-" digits))) ->
             validate_and_parse_route route
             = Ret (String c0 "", String c1 "", - Str.decimal digits))).
Proof.
  split; [|split].
  - intros origin destination distance. split.
    + intros Hret.
      destruct route as [[|c0 [|c1 [|c2 r]]]|]; try discriminate Hret.
      rewrite validate_unfold in Hret.
      destruct (Str.int (String c2 r)) as [n|e] eqn:Hint; [|discriminate].
      cbn [bind] in Hret.
      destruct (Str.is_upper c0) eqn:H0; [|discriminate].
      destruct (Str.is_upper c1) eqn:H1; [|discriminate].
      cbn in Hret. injection Hret as <- <- <-.
      exists c0, c1, (String c2 r). repeat split; try assumption. discriminate.
    + intros (c0 & c1 & rest & -> & Hne & H0 & H1 & Hint & -> & ->).
      destruct rest as [|c2 r]; [congruence|].
      rewrite validate_unfold, Hint. cbn [bind]. now rewrite H0, H1.
  - intros Hnot.
    destruct route as [[|c0 [|c1 [|c2 r]]]|]; try reflexivity.
    rewrite validate_unfold in *.
    destruct (Str.int (String c2 r)) as [n|e] eqn:Hint; cbn [bind] in *.
    + destruct (negb (Str.is_upper c0) || negb (Str.is_upper c1));
        [reflexivity|]. now elim (Hnot (String c0 "", String c1 "", n)).
    + now rewrite (int_raises_value_error _ _ Hint).
  - intros c0 c1 digits H0 H1 Hne Hd. split; intros ->.
    + split; [|now apply decimal_acc_nonneg].
      destruct digits as [|c2 r]; [congruence|].
      rewrite validate_unfold, (int_of_digits _ Hne Hd). cbn [bind].
      now rewrite H0, H1.
    + rewrite validate_unfold, (int_of_minus_digits _ Hne Hd). cbn [bind].
      now rewrite H0, H1.
Qed.

Lemma validate_and_parse_route_accepts_witness :
  validate_and_parse_route (Some "AE5") = Ret ("A", "E", 5)
  /\ validate_and_parse_route (Some "AB-5") = Ret ("A", "B", -5).
Proof.
  split.
  - apply (proj1 (proj1 (proj2 (proj2
             (validate_and_parse_route_accepts (Some "AE5")))
             "A"%char "E"%char "5" eq_refl eq_refl
             ltac:(discriminate) eq_refl) eq_refl)).
  - apply (proj2 (proj2 (proj2
             (validate_and_parse_route_accepts (Some "AB-5")))
             "A"%char "B"%char "5" eq_refl eq_refl
             ltac:(discriminate) eq_refl) eq_refl).
Defined.

(** ** Loops and dictionaries *)

Section ForEach.
Context {A S : Type}.
Variable P : S -> Prop.
Variable xs : list A.
Variable body : A -> S -> result S.

(** A property kept by every iteration that returns holds at the end. *)
Lemma for_each_invariant :
  (forall x s s', In x xs -> P s -> body x s = Ret s' -> P s') ->
  forall s s', P s -> for_each xs body s = Ret s' -> P s'.
Proof.
  induction xs as [|x rest IH]; intros Hbody s s' Hs Hrun; simpl in Hrun.
  - now injection Hrun as <-.
  - destruct (body x s) as [s1|e] eqn:Hx; [|discriminate].
    cbn [bind] in Hrun. apply (IH (fun y t t' Hy => Hbody y t t' (or_intror Hy)) s1 s');
      [|exact Hrun].
    apply (Hbody x s s1); [now left|exact Hs|exact Hx].
Qed.

(** A loop whose iterations all return returns. *)
Lemma for_each_returns :
  (forall x s, In x xs -> P s -> exists s', body x s = Ret s' /\ P s') ->
  forall s, P s -> exists s', for_each xs body s = Ret s' /\ P s'.
Proof.
  induction xs as [|x rest IH]; intros Hbody s Hs; simpl.
  - now exists s.
  - destruct (Hbody x s (or_introl eq_refl) Hs) as (s1 & -> & Hs1).
    cbn [bind]. apply IH; [|exact Hs1].
    intros y t Hy. apply Hbody. now right.
Qed.
End ForEach.

Section DictFacts.
Context {V : Type}.
Implicit Types (d : Dict.t V) (k : string) (v : V).

Lemma get_in d k v : Dict.get k d = Some v -> In (k, v) d.
Proof.
  induction d as [|[k' v'] rest IH]; simpl; [discriminate|].
  destruct (String.eqb_spec k k') as [->|Hne].
  - intros [= ->]. now left.
  - intros Hget. right. now apply IH.
Qed.

Lemma in_mem d k v : In (k, v) d -> Dict.mem k d = true.
Proof.
  unfold Dict.mem. induction d as [|[k' v'] rest IH]; simpl; [tauto|].
  intros [[= -> ->]|Hin].
  - now rewrite String.eqb_refl.
  - destruct (String.eqb k k'); [reflexivity|now apply IH].
Qed.

Lemma in_get d k v : unique_keys d = true -> In (k, v) d -> Dict.get k d = Some v.
Proof.
  induction d as [|[k' v'] rest IH]; simpl; [tauto|].
  intros Hu [[= -> ->]|Hin].
  - now rewrite String.eqb_refl.
  - apply andb_prop in Hu as [Hfresh Hu].
    destruct (String.eqb_spec k k') as [->|Hne]; [|now apply IH].
    rewrite (in_mem _ _ _ Hin) in Hfresh. discriminate.
Qed.

Lemma mem_get d k : Dict.mem k d = true -> exists v, Dict.get k d = Some v.
Proof.
  unfold Dict.mem. destruct (Dict.get k d) as [v|]; [now exists v|discriminate].
Qed.
End DictFacts.

Section WellFormed.
Variable routes : graph.
Hypothesis Hwf : well_formed routes = true.

Lemma well_formed_entry (origin : station) (from_origin : Dict.t Z) :
  Dict.get origin routes = Some from_origin ->
  Str.falsy origin = false
  /\ unique_keys from_origin = true
  /\ forall destination distance,
       In (destination, distance) from_origin ->
       Dict.mem destination routes = true.
Proof.
  intros Hget. apply get_in in Hget.
  unfold well_formed in Hwf. apply andb_prop in Hwf as [_ Hall].
  rewrite forallb_forall in Hall. specialize (Hall _ Hget). cbv beta iota in Hall.
  apply andb_prop in Hall as [Hall Hclosed].
  apply andb_prop in Hall as [Hname Hunique].
  split; [now apply negb_true_iff|]. split; [exact Hunique|].
  intros destination distance Hin. rewrite forallb_forall in Hclosed.
  exact (Hclosed _ Hin).
Qed.

(** An edge met while iterating over [routes[origin]]. *)
Lemma well_formed_edge (origin destination : station)
  (from_origin : Dict.t Z) (distance : Z) :
  Dict.get origin routes = Some from_origin ->
  In (destination, distance) from_origin ->
  Dict.get destination from_origin = Some distance
  /\ Str.falsy destination = false
  /\ exists from_destination,
       Dict.get destination routes = Some from_destination.
Proof.
  intros Hget Hin.
  destruct (well_formed_entry _ _ Hget) as (_ & Hunique & Hclosed).
  split; [now apply in_get|].
  destruct (mem_get _ _ (Hclosed _ _ Hin)) as [from_destination Hd].
  split; [|now exists from_destination].
  now destruct (well_formed_entry _ _ Hd).
Qed.
End WellFormed.

Lemma positive_edge (routes : graph) (origin destination : station)
  (from_origin : Dict.t Z) (distance : Z) :
  positive routes = true ->
  Dict.get origin routes = Some from_origin ->
  In (destination, distance) from_origin ->
  0 < distance.
Proof.
  intros Hpos Hget Hin. apply get_in in Hget.
  unfold positive in Hpos. rewrite forallb_forall in Hpos.
  specialize (Hpos _ Hget). cbv beta iota in Hpos.
  rewrite forallb_forall in Hpos. specialize (Hpos _ Hin). cbv beta iota in Hpos.
  now apply Z.ltb_lt.
Qed.

(** ** Distance-bounded search *)

Lemma last_default {A : Type} (l : list A) (a b : A) :
  l <> [] -> last l a = last l b.
Proof.
  induction l as [|x [|y rest] IH]; intros Hne; [congruence|reflexivity|].
  change (last (y :: rest) a = last (y :: rest) b). apply IH. discriminate.
Qed.

Lemma add_to_last_total (distance total : Z) (stops : list station) :
  add_to_last distance (map Stop stops ++ [Total total])
  = Ret (map Stop stops ++ [Total (total + distance)]).
Proof.
  induction stops as [|s rest IH]; [reflexivity|].
  change (add_to_last distance (Stop s :: (map Stop rest ++ [Total total]))
          = Ret (Stop s :: (map Stop rest ++ [Total (total + distance)]))).
  destruct (map Stop rest ++ [Total total]) as [|x l] eqn:Hl.
  - now destruct (map Stop rest).
  - cbn [add_to_last] in *. rewrite IH. reflexivity.
Qed.

Section DistanceSearch.
Variable routes : graph.
Hypothesis Hwf : well_formed routes = true.

(** The first edge of a good route, put in front of it. *)
Lemma good_route_step (origin stop destination : station)
  (from_origin : Dict.t Z) (distance max_distance : Z) (subroute : list item) :
  Dict.get origin routes = Some from_origin ->
  In (stop, distance) from_origin ->
  good_route routes stop destination (max_distance - distance) subroute ->
  exists route,
    add_to_last distance (Stop origin :: subroute) = Ret route
    /\ subroute <> []
    /\ good_route routes origin destination max_distance route.
Proof.
  intros Hget Hin (stops & total & -> & Hne & Hlast & Hwalk & Hlt).
  destruct (well_formed_edge routes Hwf _ _ _ _ Hget Hin) as (Hedge & _).
  exists (map Stop (origin :: stop :: stops) ++ [Total (total + distance)]).
  split; [|split].
  - exact (add_to_last_total distance total (origin :: stop :: stops)).
  - discriminate.
  - exists (stop :: stops), (total + distance). repeat split.
    + discriminate.
    + rewrite <- Hlast. destruct stops; [congruence|].
      apply (last_default (s :: stops)). discriminate.
    + cbn [walk_distance]. rewrite Hget, Hedge, Hwalk. f_equal. lia.
    + lia.
Qed.

Lemma good_route_direct (origin stop : station) (from_origin : Dict.t Z)
  (distance max_distance : Z) :
  Dict.get origin routes = Some from_origin ->
  In (stop, distance) from_origin ->
  distance < max_distance ->
  good_route routes origin stop max_distance
    [Stop origin; Stop stop; Total distance].
Proof.
  intros Hget Hin Hlt.
  destruct (well_formed_edge routes Hwf _ _ _ _ Hget Hin) as (Hedge & _).
  exists [stop], distance. repeat split; try assumption; [discriminate|].
  cbn [walk_distance]. rewrite Hget, Hedge. f_equal. lia.
Qed.

(** Whatever [find_routes_by_distance] returns is a list of good routes. *)
Lemma find_routes_by_distance_sound (fuel : nat) :
  forall origin destination max_distance found,
    find_routes_by_distance fuel routes origin destination max_distance
    = Ret found ->
    Forall (good_route routes origin destination max_distance) found.
Proof.
  induction fuel as [|fuel IH]; intros origin destination max_distance found;
    cbn [find_routes_by_distance]; [discriminate|].
  destruct (Str.falsy origin || Str.falsy destination); [discriminate|].
  destruct (Dict.get origin routes) as [from_origin|] eqn:Hget; [|discriminate].
  apply for_each_invariant; [|constructor].
  intros [stop distance] acc acc' Hin Hacc. cbv beta iota zeta.
  assert (Hrest : forall acc1,
    Forall (good_route routes origin destination max_distance) acc1 ->
    (if max_distance - distance >? 0 then
       subroutes <-
         find_routes_by_distance fuel routes stop destination
           (max_distance - distance) ;;
       for_each subroutes
         (fun subroute found =>
            match subroute with
            | [] => Ret found
            | _ :: _ =>
                route <- add_to_last distance (Stop origin :: subroute) ;;
                Ret (found ++ [route])
            end)
         acc1
     else Ret acc1) = Ret acc' ->
    Forall (good_route routes origin destination max_distance) acc').
  { intros acc1 Hacc1.
    destruct (max_distance - distance >? 0); [|now intros [= <-]].
    destruct (find_routes_by_distance fuel routes stop destination _)
      as [subroutes|e] eqn:Hsub; [|discriminate].
    cbn [bind]. apply IH in Hsub. rewrite Forall_forall in Hsub.
    apply for_each_invariant; [|exact Hacc1].
    intros subroute found1 found2 Hs Hfound1 Hbody.
    destruct (good_route_step origin stop destination from_origin distance
                max_distance subroute Hget Hin (Hsub _ Hs))
      as (route & Hadd & Hne & Hgood).
    destruct subroute as [|x l]; [congruence|].
    rewrite Hadd in Hbody. injection Hbody as <-.
    apply Forall_app. split; [exact Hfound1|]. now constructor. }
  destruct (String.eqb_spec stop destination) as [<-|_];
    [|now apply Hrest].
  destruct (Z.ltb_spec distance max_distance); [|now apply Hrest].
  cbn [andb]. apply Hrest. apply Forall_app. split; [exact Hacc|].
  constructor; [|constructor]. now apply good_route_direct with from_origin.
Qed.

Hypothesis Hpos : positive routes = true.

(** With strictly positive distances the budget decreases at every call:
    a depth of [max_distance] calls, and one more, is enough. *)
Lemma find_routes_by_distance_returns (fuel : nat) :
  forall origin destination max_distance,
    Dict.mem origin routes = true ->
    Str.falsy destination = false ->
    (Z.to_nat max_distance < fuel)%nat ->
    exists found,
      find_routes_by_distance fuel routes origin destination max_distance
      = Ret found.
Proof.
  induction fuel as [|fuel IH]; intros origin destination max_distance
    Horigin Hdest Hfuel; [lia|].
  cbn [find_routes_by_distance].
  destruct (mem_get _ _ Horigin) as [from_origin Hget].
  destruct (well_formed_entry routes Hwf _ _ Hget) as (Hname & _).
  rewrite Hname, Hdest, Hget. cbn [orb].
  destruct (for_each_returns (fun _ => True) from_origin
    (fun '(stop, distance) found =>
       let found :=
         if String.eqb stop destination && (distance <? max_distance)
         then found ++ [[Stop origin; Stop stop; Total distance]]
         else found in
       if max_distance - distance >? 0 then
         subroutes <-
           find_routes_by_distance fuel routes stop destination
             (max_distance - distance) ;;
         for_each subroutes
           (fun subroute found =>
              match subroute with
              | [] => Ret found
              | _ :: _ =>
                  route <- add_to_last distance (Stop origin :: subroute) ;;
                  Ret (found ++ [route])
              end)
           found
       else Ret found)) with (s := @nil (list item)) as (found & Hrun & _);
    [|exact I|now exists found].
  intros [stop distance] acc Hin _. cbv beta iota zeta.
  generalize (if String.eqb stop destination && (distance <? max_distance)
              then acc ++ [[Stop origin; Stop stop; Total distance]]
              else acc).
  intros acc1.
  destruct (Z.gtb_spec (max_distance - distance) 0) as [Hgt|_];
    [|now exists acc1].
  pose proof (positive_edge _ _ _ _ _ Hpos Hget Hin) as Hd.
  destruct (well_formed_edge routes Hwf _ _ _ _ Hget Hin)
    as (_ & _ & from_stop & Hstop).
  destruct (IH stop destination (max_distance - distance)) as [subroutes Hsub];
    [now apply in_mem with (v := from_stop), get_in|exact Hdest|lia|].
  rewrite Hsub. cbn [bind].
  apply find_routes_by_distance_sound in Hsub. rewrite Forall_forall in Hsub.
  destruct (for_each_returns (fun _ => True) subroutes
    (fun subroute found =>
       match subroute with
       | [] => Ret found
       | _ :: _ =>
           route <- add_to_last distance (Stop origin :: subroute) ;;
           Ret (found ++ [route])
       end)) with (s := acc1) as (acc2 & Hrun & _);
    [|exact I|now exists acc2].
  intros subroute found1 Hs _.
  destruct (good_route_step origin stop destination from_origin distance
              max_distance subroute Hget Hin (Hsub _ Hs))
    as (route & Hadd & Hne & _).
  destruct subroute as [|x l]; [congruence|].
  rewrite Hadd. cbn [bind]. now exists (found1 ++ [route]).
Qed.
End DistanceSearch.

(** More allowed depth does not change what a search returns. *)
Lemma for_each_agree {A S : Type} (xs : list A) (body1 body2 : A -> S -> result S) :
  (forall x s s', In x xs -> body1 x s = Ret s' -> body2 x s = Ret s') ->
  forall s s', for_each xs body1 s = Ret s' -> for_each xs body2 s = Ret s'.
Proof.
  induction xs as [|x rest IH]; intros Hbody s s'; simpl; [trivial|].
  destruct (body1 x s) as [s1|e] eqn:H1; [|discriminate].
  rewrite (Hbody x s s1 (or_introl eq_refl) H1). cbn [bind].
  apply IH. intros y t t' Hy. apply Hbody. now right.
Qed.

Lemma find_routes_by_distance_enough (routes : graph) (fuel : nat) :
  forall fuel' origin destination max_distance found,
    (fuel <= fuel')%nat ->
    find_routes_by_distance fuel routes origin destination max_distance
    = Ret found ->
    find_routes_by_distance fuel' routes origin destination max_distance
    = Ret found.
Proof.
  induction fuel as [|fuel IH];
    intros fuel' origin destination max_distance found Hle; [discriminate|].
  destruct fuel' as [|fuel']; [lia|]. cbn [find_routes_by_distance].
  destruct (Str.falsy origin || Str.falsy destination); [trivial|].
  destruct (Dict.get origin routes) as [from_origin|]; [|trivial].
  apply for_each_agree. intros [stop distance] acc acc' _. cbv beta iota zeta.
  destruct (max_distance - distance >? 0); [|trivial].
  destruct (find_routes_by_distance fuel routes stop destination _)
    as [subroutes|e] eqn:Hsub; [|discriminate].
  rewrite (IH fuel' _ _ _ _ ltac:(lia) Hsub). trivial.
Qed.

(** C7: every route returned by [find_routes_by_distance] starts at the
    origin, ends at the destination, follows edges of the map, carries as
    its last element the sum of the distances of these edges, and that sum
    is strictly below [max_distance]; on the reference map the search from
    C to C below 30 returns exactly 7 routes. *)
Theorem find_routes_by_distance_routes :
  (forall fuel routes origin destination max_distance found route,
      well_formed routes = true ->
      find_routes_by_distance fuel routes origin destination max_distance
      = Ret found ->
      In route found ->
      exists (stops : list station) (total : Z),
        route = map Stop (origin :: stops) ++ [Total total]
        /\ stops <> []
        /\ last stops origin = destination
        /\ walk_distance routes origin stops = Some total
        /\ total < max_distance)
  /\ (exists found,
         List.length found = 7%nat
         /\ forall fuel, (16 <= fuel)%nat ->
              find_routes_by_distance fuel reference_map "C" "C" 30 = Ret found).
Proof.
  split.
  - intros fuel routes origin destination max_distance found route Hwf Hrun Hin.
    pose proof (find_routes_by_distance_sound routes Hwf fuel _ _ _ _ Hrun)
      as Hall.
    rewrite Forall_forall in Hall. exact (Hall route Hin).
  - eexists. split; cycle 1.
    + intros fuel Hfuel.
      apply (find_routes_by_distance_enough reference_map 16 fuel); [exact Hfuel|].
      vm_compute. reflexivity.
    + reflexivity.
Qed.

Lemma find_routes_by_distance_routes_witness :
  exists (stops : list station) (total : Z),
    [Stop "C"; Stop "E"; Stop "B"; Stop "C"; Total 9]
    = map Stop ("C" :: stops) ++ [Total total]
    /\ stops <> []
    /\ last stops "C" = "C"
    /\ walk_distance reference_map "C" stops = Some total
    /\ total < 30.
Proof.
  apply (proj1 find_routes_by_distance_routes 16%nat reference_map "C" "C" 30
           [[Stop "C"; Stop "D"; Stop "C"; Total 16];
            [Stop "C"; Stop "D"; Stop "C"; Stop "E"; Stop "B"; Stop "C"; Total 25];
            [Stop "C"; Stop "D"; Stop "E"; Stop "B"; Stop "C"; Total 21];
            [Stop "C"; Stop "E"; Stop "B"; Stop "C"; Total 9];
            [Stop "C"; Stop "E"; Stop "B"; Stop "C"; Stop "D"; Stop "C"; Total 25];
            [Stop "C"; Stop "E"; Stop "B"; Stop "C"; Stop "E"; Stop "B"; Stop "C";
             Total 18];
            [Stop "C"; Stop "E"; Stop "B"; Stop "C"; Stop "E"; Stop "B"; Stop "C";
             Stop "E"; Stop "B"; Stop "C"; Total 27]]).
  - reflexivity.
  - vm_compute. reflexivity.
  - simpl. tauto.
Defined.

(** C8: on a map whose distances are all strictly positive,
    [find_routes_by_distance] terminates for every known origin, every
    destination and every integer [max_distance]: each call lowers the
    budget by at least one, so no call is nested deeper than [max_distance]
    calls, plus the first one.  It returns a list, unless the destination
    is the empty string, which the first test of the method rejects. *)
Theorem find_routes_by_distance_terminates (routes : graph)
  (origin destination : station) (max_distance : Z) (fuel : nat) :
  well_formed routes = true ->
  positive routes = true ->
  Dict.mem origin routes = true ->
  (Z.to_nat max_distance < fuel)%nat ->
  if Str.falsy destination then
    find_routes_by_distance fuel routes origin destination max_distance
    = Raise ValueError
  else
    exists found,
      find_routes_by_distance fuel routes origin destination max_distance
      = Ret found.
Proof.
  intros Hwf Hpos Horigin Hfuel.
  destruct (Str.falsy destination) eqn:Hdest.
  - destruct fuel as [|fuel]; [lia|]. cbn [find_routes_by_distance].
    now rewrite Hdest, orb_true_r.
  - now apply find_routes_by_distance_returns.
Qed.

Lemma find_routes_by_distance_terminates_witness :
  exists found, find_routes_by_distance 16 test_map "A" "C" 15 = Ret found.
Proof.
  apply (find_routes_by_distance_terminates test_map "A" "C" 15 16).
  - reflexivity.
  - reflexivity.
  - reflexivity.
  - vm_compute. lia.
Defined.

(** ** Stop-bounded search *)

(** The search below one stop: no comparison of [stops] succeeds, so the
    call goes through every outgoing edge with [stops - 1]. *)
Lemma find_routes_by_stops_below_one (fuel : nat) (routes : graph)
  (origin destination : station) (stops : Z) (mode : FindModes.t)
  (from_origin : Dict.t Z) :
  Str.falsy origin = false ->
  Str.falsy destination = false ->
  Dict.get origin routes = Some from_origin ->
  stops <= 0 ->
  find_routes_by_stops (S fuel) routes origin destination stops mode
  = match from_origin with
    | [] => Ret []
    | _ :: _ =>
        for_each from_origin
          (fun '(next_stop, distance) found =>
             subroutes <-
               find_routes_by_stops fuel routes next_stop destination
                 (stops - 1) mode ;;
             Ret (found ++
                  map (fun '(path, subroute) =>
                         (origin :: path, distance + subroute))
                      subroutes))
          []
    end.
Proof.
  intros Ho Hd Hget Hstops. cbn [find_routes_by_stops].
  rewrite Ho, Hd, Hget. cbn [orb].
  replace (stops >=? 1) with false
    by (symmetry; rewrite Z.geb_leb; apply Z.leb_gt; lia).
  replace (stops =? 1) with false by (symmetry; apply Z.eqb_neq; lia).
  rewrite !andb_false_r. cbn [orb negb andb].
  now destruct from_origin.
Qed.

(** The search with stops left, in mode [max], from a station that has no
    edge to the destination. *)
Lemma find_routes_by_stops_no_direct_edge (fuel : nat) (routes : graph)
  (origin destination : station) (stops : Z) (from_origin : Dict.t Z) :
  Str.falsy origin = false ->
  Str.falsy destination = false ->
  Dict.get origin routes = Some from_origin ->
  Dict.get destination from_origin = None ->
  1 <= stops ->
  find_routes_by_stops (S fuel) routes origin destination stops FindModes.max
  = if negb (stops =? 1) && (List.length from_origin =? 0)%nat then Ret []
    else
      for_each from_origin
        (fun '(next_stop, distance) found =>
           subroutes <-
             find_routes_by_stops fuel routes next_stop destination
               (stops - 1) FindModes.max ;;
           Ret (found ++
                map (fun '(path, subroute) =>
                       (origin :: path, distance + subroute))
                    subroutes))
        [].
Proof.
  intros Ho Hd Hget Hedge Hstops. cbn [find_routes_by_stops].
  rewrite Ho, Hd, Hget, Hedge. cbn [orb FindModes.eqb andb].
  replace (stops >=? 1) with true
    by (symmetry; rewrite Z.geb_leb; apply Z.leb_le; lia).
  reflexivity.
Qed.

(** A map with the cycle A -> C -> A, as in [railway_test.py]. *)
Section CycleSearch.
Variable routes : graph.
Hypothesis HA : Dict.get "A" routes = Some [("B", 1); ("C", 2)].
Hypothesis HB : Dict.get "B" routes = Some [].
Hypothesis HC : Dict.get "C" routes = Some [("A", 4)].

Variable destination : station.
Hypothesis Hdestination : Str.falsy destination = false.
Variable mode : FindModes.t.

(** Once the budget of stops is used up the search goes round the cycle,
    one call deeper at each edge, and no depth is enough. *)
Lemma cycle_search_overflows (fuel : nat) :
  forall stops, stops <= 0 ->
    find_routes_by_stops fuel routes "A" destination stops mode
    = Raise RecursionError
    /\ find_routes_by_stops fuel routes "C" destination stops mode
       = Raise RecursionError.
Proof.
  induction fuel as [|fuel IH]; intros stops Hstops; [split; reflexivity|].
  rewrite (find_routes_by_stops_below_one fuel routes "A" _ _ _ _
             eq_refl Hdestination HA Hstops).
  rewrite (find_routes_by_stops_below_one fuel routes "C" _ _ _ _
             eq_refl Hdestination HC Hstops).
  destruct (IH (stops - 1) ltac:(lia)) as [IHA IHC].
  cbn [for_each]. rewrite IHA, IHC. cbn [bind]. split; [|reflexivity].
  destruct fuel as [|fuel]; [reflexivity|].
  rewrite (find_routes_by_stops_below_one fuel routes "B" destination
             (stops - 1) mode [] eq_refl Hdestination HB ltac:(lia)).
  reflexivity.
Qed.
End CycleSearch.

(** C3, on the map AB1, AC2, CA4: [find_routes_by_stops('C', 'B', 1)] has no
    direct edge to accept, calls itself from A with 0 stops, and from there
    on the number of stops is never compared again: the calls follow the
    cycle A -> C -> A until the interpreter gives up.  Whatever depth is
    allowed, the call raises [RecursionError] and returns no list. *)
Theorem find_routes_by_stops_exhausted_budget_overflows :
  forall fuel,
    find_routes_by_stops fuel test_map "C" "B" 1 FindModes.max
    = Raise RecursionError.
Proof.
  intros [|fuel]; [reflexivity|].
  rewrite (find_routes_by_stops_no_direct_edge fuel test_map "C" "B" 1
             [("A", 4)]) by (reflexivity || lia).
  cbn [Z.eqb negb andb for_each]. change (1 - 1) with 0.
  destruct (cycle_search_overflows test_map eq_refl eq_refl eq_refl "B"
              eq_refl FindModes.max fuel 0 ltac:(lia)) as [-> _].
  reflexivity.
Qed.

(** C10, on the map AB1, AC2, CA4 and the station A, which has outgoing
    edges: with a bound of one stop the search from A back to A never
    returns (it overflows round the cycle A -> C -> A whatever depth is
    allowed), so there is no count of results at n = 1 for the count at
    n = 2, one route, to be compared with. *)
Theorem find_routes_by_stops_no_count_at_one :
  Dict.get "A" test_map = Some [("B", 1); ("C", 2)]
  /\ (forall fuel,
         find_routes_by_stops fuel test_map "A" "A" 1 FindModes.max
         = Raise RecursionError)
  /\ (forall fuel, (2 <= fuel)%nat ->
         find_routes_by_stops fuel test_map "A" "A" 2 FindModes.max
         = Ret [(["A"; "C"; "A"], 6)]).
Proof.
  split; [reflexivity|]. split.
  - intros [|fuel]; [reflexivity|].
    rewrite (find_routes_by_stops_no_direct_edge fuel test_map "A" "A" 1
               [("B", 1); ("C", 2)]) by (reflexivity || lia).
    cbn [Z.eqb negb andb for_each]. change (1 - 1) with 0.
    destruct (cycle_search_overflows test_map eq_refl eq_refl eq_refl "A"
                eq_refl FindModes.max fuel 0 ltac:(lia)) as [_ ->].
    destruct fuel as [|fuel]; reflexivity.
  - intros [|[|fuel]] Hfuel; try lia. reflexivity.
Qed.

(** C2, as stated, fails on the map AB1, AC2, CA4: the walk A-C-A-C has
    three edges and ends at C, yet [find_routes_by_stops('A', 'C', 3)]
    returns the direct route A-C alone. *)
Lemma direct_edge_hides_longer_walks :
  ~ reports_every_walk test_map "A" "C" 3.
Proof.
  intros (fuel & found & Hrun & Hall).
  destruct fuel as [|fuel]; [discriminate|].
  change (Ret [(["A"; "C"], 2)] = Ret found) in Hrun. injection Hrun as <-.
  specialize (Hall ["C"; "A"; "C"] 8). simpl in Hall.
  destruct Hall as [Heq|[]]; try (reflexivity || lia || discriminate).
Qed.

(** C2, amended: in mode [max], for every map, every known origin, every
    destination that the origin reaches by an edge and every bound of at
    least one stop, [find_routes_by_stops] returns exactly one result, the
    direct route with the distance of that edge: the call returns as soon
    as it has accepted the direct edge and explores no other edge of the
    origin. *)
Theorem find_routes_by_stops_direct_edge (fuel : nat) (routes : graph)
  (origin destination : station) (stops : Z) (from_origin : Dict.t Z)
  (distance : Z) :
  Str.falsy origin = false ->
  Str.falsy destination = false ->
  Dict.get origin routes = Some from_origin ->
  Dict.get destination from_origin = Some distance ->
  1 <= stops ->
  find_routes_by_stops (S fuel) routes origin destination stops FindModes.max
  = Ret [([origin; destination], distance)].
Proof.
  intros Ho Hd Hget Hedge Hstops. cbn [find_routes_by_stops].
  rewrite Ho, Hd, Hget, Hedge. cbn [orb FindModes.eqb andb].
  replace (stops >=? 1) with true
    by (symmetry; rewrite Z.geb_leb; apply Z.leb_le; lia).
  reflexivity.
Qed.

Lemma find_routes_by_stops_direct_edge_witness :
  find_routes_by_stops 1 test_map "A" "C" 3 FindModes.max
  = Ret [(["A"; "C"], 2)].
Proof.
  apply (find_routes_by_stops_direct_edge 0 test_map "A" "C" 3
           [("B", 1); ("C", 2)] 2).
  - reflexivity.
  - reflexivity.
  - reflexivity.
  - reflexivity.
  - lia.
Defined.

(** On the same map, a destination that no station reaches by an edge:
    whatever the bound, the search from A or from C ends up below one stop
    on the cycle. *)
Section CycleSearchUnreached.
Variable routes : graph.
Hypothesis HA : Dict.get "A" routes = Some [("B", 1); ("C", 2)].
Hypothesis HB : Dict.get "B" routes = Some [].
Hypothesis HC : Dict.get "C" routes = Some [("A", 4)].

Variable destination : station.
Hypothesis Hdestination : Str.falsy destination = false.
Hypothesis HnotA : String.eqb destination "A" = false.
Hypothesis HnotB : String.eqb destination "B" = false.
Hypothesis HnotC : String.eqb destination "C" = false.

Lemma dead_end_returns_nothing (fuel : nat) (stops : Z) :
  find_routes_by_stops (S fuel) routes "B" destination stops FindModes.max
  = Ret [].
Proof.
  destruct (Z.le_gt_cases stops 0) as [Hle|Hgt].
  - now rewrite (find_routes_by_stops_below_one fuel routes "B" destination
                   stops FindModes.max [] eq_refl Hdestination HB Hle).
  - rewrite (find_routes_by_stops_no_direct_edge fuel routes "B" destination
               stops [] eq_refl Hdestination HB eq_refl ltac:(lia)).
    now destruct (negb (stops =? 1) && _).
Qed.

Lemma unreached_search_overflows (bound : nat) :
  forall fuel stops, stops <= Z.of_nat bound ->
    find_routes_by_stops fuel routes "A" destination stops FindModes.max
    = Raise RecursionError
    /\ find_routes_by_stops fuel routes "C" destination stops FindModes.max
       = Raise RecursionError.
Proof.
  induction bound as [|bound IH]; intros fuel stops Hstops.
  - now apply cycle_search_overflows.
  - destruct (Z.le_gt_cases stops 0) as [Hle|Hgt];
      [now apply cycle_search_overflows|].
    destruct fuel as [|fuel]; [now split|].
    destruct (IH fuel (stops - 1) ltac:(lia)) as [IHA IHC].
    rewrite (find_routes_by_stops_no_direct_edge fuel routes "A" destination
               stops _ eq_refl Hdestination HA)
      by (cbn [Dict.get]; rewrite ?HnotB, ?HnotC; reflexivity || lia).
    rewrite (find_routes_by_stops_no_direct_edge fuel routes "C" destination
               stops _ eq_refl Hdestination HC)
      by (cbn [Dict.get]; rewrite ?HnotA; reflexivity || lia).
    cbn [List.length Nat.eqb andb for_each]. rewrite !andb_false_r.
    rewrite IHA, IHC. cbn [bind]. split; [|reflexivity].
    destruct fuel as [|fuel]; [reflexivity|].
    now rewrite dead_end_returns_nothing.
Qed.
End CycleSearchUnreached.

(** ** Shortest route *)

Lemma pop_last {A : Type} (l : list A) (x : A) : pop (l ++ [x]) = Some (l, x).
Proof.
  induction l as [|y rest IH]; [reflexivity|].
  cbn [app pop]. now rewrite IH.
Qed.

(** While no route to the destination is known, every node taken from
    [nodes_to_visit] is expanded. *)
Lemma visit_unbounded (routes : graph) (destination : station)
  (nodes : list node) (o d : station) (distance_to_origin edge : Z)
  (from_o from_d : Dict.t Z) :
  Dict.get o routes = Some from_o ->
  Dict.get d from_o = Some edge ->
  Dict.get d routes = Some from_d ->
  String.eqb d destination = false ->
  visit routes destination nodes Inf (o, d, distance_to_origin)
  = Ret (fold_left
           (fun nodes (_ : station) =>
              nodes ++ map (fun stop => (d, stop, edge + distance_to_origin))
                           (Dict.keys from_d))
           (Dict.keys from_d) nodes,
         Inf).
Proof.
  intros Ho Hedge Hd Hne. unfold visit. now rewrite Ho, Hedge, Hd, Hne.
Qed.

Section RunsForever.
Variable routes : graph.
Variable destination : station.

(** A set of loop states none of which ends the loop or raises, closed
    under one iteration. *)
Variable busy : list node -> number -> Prop.
Hypothesis busy_step :
  forall nodes shortest,
    busy nodes shortest ->
    exists rest n nodes' shortest',
      pop nodes = Some (rest, n)
      /\ visit routes destination rest shortest n = Ret (nodes', shortest')
      /\ busy nodes' shortest'.

Lemma while_nodes_runs_forever (fuel : nat) :
  forall nodes shortest,
    busy nodes shortest ->
    while_nodes fuel routes destination nodes shortest = None.
Proof.
  induction fuel as [|fuel IH]; intros nodes shortest Hbusy;
    destruct (busy_step _ _ Hbusy)
      as (rest & n & nodes' & shortest' & Hpop & Hvisit & Hbusy');
    cbn [while_nodes]; rewrite Hpop; [reflexivity|].
  rewrite Hvisit. now apply IH.
Qed.
End RunsForever.

(** On the reference map, from B, the search for A goes round
    B -> C -> E -> B. *)
Lemma reference_cycle_busy :
  forall nodes shortest,
    on_cycle3 "B" "C" "E" nodes shortest ->
    exists rest n nodes' shortest',
      pop nodes = Some (rest, n)
      /\ visit reference_map "A" rest shortest n = Ret (nodes', shortest')
      /\ on_cycle3 "B" "C" "E" nodes' shortest'.
Proof.
  intros nodes shortest (-> & rest & k & [ -> | [ -> | -> ] ]);
    rewrite pop_last; do 2 eexists; do 2 eexists;
    (split; [reflexivity|]).
  - rewrite (visit_unbounded reference_map "A" rest "B" "C" k 4
               [("C", 4)] [("D", 8); ("E", 2)]) by reflexivity.
    split; [reflexivity|]. split; [reflexivity|]. flatten_nodes.
    exists (rest ++ [("C", "D", 4 + k); ("C", "E", 4 + k); ("C", "D", 4 + k)]),
      (4 + k).
    right. left. now rewrite <- app_assoc.
  - rewrite (visit_unbounded reference_map "A" rest "C" "E" k 2
               [("D", 8); ("E", 2)] [("B", 3)]) by reflexivity.
    split; [reflexivity|]. split; [reflexivity|]. flatten_nodes.
    exists rest, (2 + k). right. right. reflexivity.
  - rewrite (visit_unbounded reference_map "A" rest "E" "B" k 3
               [("B", 3)] [("C", 4)]) by reflexivity.
    split; [reflexivity|]. split; [reflexivity|]. flatten_nodes.
    exists rest, (3 + k). left. reflexivity.
Qed.

(** On the map AD1, DC1, AB1, BA1, from A, the search for C goes round
    A -> B -> A and never takes the nodes towards D from the list. *)
Lemma detour_cycle_busy :
  forall nodes shortest,
    on_cycle2 "A" "B" nodes shortest ->
    exists rest n nodes' shortest',
      pop nodes = Some (rest, n)
      /\ visit detour_map "C" rest shortest n = Ret (nodes', shortest')
      /\ on_cycle2 "A" "B" nodes' shortest'.
Proof.
  intros nodes shortest (-> & rest & k & [ -> | -> ]);
    rewrite pop_last; do 2 eexists; do 2 eexists;
    (split; [reflexivity|]).
  - rewrite (visit_unbounded detour_map "C" rest "A" "B" k 1
               [("D", 1); ("B", 1)] [("A", 1)]) by reflexivity.
    split; [reflexivity|]. split; [reflexivity|]. flatten_nodes.
    exists rest, (1 + k). right. reflexivity.
  - rewrite (visit_unbounded detour_map "C" rest "B" "A" k 1
               [("A", 1)] [("D", 1); ("B", 1)]) by reflexivity.
    split; [reflexivity|]. split; [reflexivity|]. flatten_nodes.
    exists (rest ++ [("A", "D", 1 + k); ("A", "B", 1 + k); ("A", "D", 1 + k)]),
      (1 + k).
    left. now rewrite <- app_assoc.
Qed.

(** On the map AB1, AC2, CA4, from A, the search for a station that is not
    on the map goes round A -> C -> A. *)
Lemma test_cycle_busy (destination : station) :
  String.eqb "A" destination = false ->
  String.eqb "C" destination = false ->
  forall nodes shortest,
    on_cycle2 "A" "C" nodes shortest ->
    exists rest n nodes' shortest',
      pop nodes = Some (rest, n)
      /\ visit test_map destination rest shortest n = Ret (nodes', shortest')
      /\ on_cycle2 "A" "C" nodes' shortest'.
Proof.
  intros HA HC nodes shortest (-> & rest & k & [ -> | -> ]);
    rewrite pop_last; do 2 eexists; do 2 eexists;
    (split; [reflexivity|]).
  - rewrite (visit_unbounded test_map destination rest "A" "C" k 2
               [("B", 1); ("C", 2)] [("A", 4)]) by (reflexivity || assumption).
    split; [reflexivity|]. split; [reflexivity|]. flatten_nodes.
    exists rest, (2 + k). right. reflexivity.
  - rewrite (visit_unbounded test_map destination rest "C" "A" k 4
               [("A", 4)] [("B", 1); ("C", 2)]) by (reflexivity || assumption).
    split; [reflexivity|]. split; [reflexivity|]. flatten_nodes.
    exists (rest ++ [("A", "B", 4 + k); ("A", "C", 4 + k); ("A", "B", 4 + k)]),
      (4 + k).
    left. now rewrite <- app_assoc.
Qed.

(** The call, up to its loop. *)
Lemma shortest_route_start (fuel : nat) (routes : graph)
  (origin destination : station) (from_origin : Dict.t Z) :
  Str.falsy origin = false ->
  Str.falsy destination = false ->
  Dict.get origin routes = Some from_origin ->
  shortest_route fuel routes origin destination
  = while_nodes fuel routes destination
      (map (fun stop => (origin, stop, 0)) (Dict.keys from_origin))
      match Dict.get destination from_origin with
      | Some distance => Int distance
      | None => Inf
      end.
Proof.
  intros Ho Hd Hget. unfold shortest_route. now rewrite Ho, Hd, Hget.
Qed.

(** C1: [shortest_route] does not always return.  On the reference map no
    walk leads from B to A, and the call from B to A never leaves its loop
    instead of returning +infinity: with no bound known nothing is pruned,
    and the nodes go round B -> C -> E -> B.  On the map AD1, DC1, AB1, BA1
    the walk A-D-C has distance 2, and the call from A to C never returns
    either: the last node added is visited first, so the loop goes round
    A -> B -> A and never visits the edge to D.  Both maps have strictly
    positive distances. *)
Theorem shortest_route_never_returns :
  (positive reference_map = true
   /\ Dict.mem "B" reference_map = true
   /\ forall fuel, shortest_route fuel reference_map "B" "A" = None)
  /\ (positive detour_map = true
      /\ walk_distance detour_map "A" ["D"; "C"] = Some 2
      /\ forall fuel, shortest_route fuel detour_map "A" "C" = None).
Proof.
  split; (split; [reflexivity|]); (split; [reflexivity|]); intros fuel.
  - rewrite (shortest_route_start fuel reference_map "B" "A" [("C", 4)])
      by reflexivity.
    apply (while_nodes_runs_forever reference_map "A"
             (on_cycle3 "B" "C" "E") reference_cycle_busy).
    split; [reflexivity|]. exists [], 0. left. reflexivity.
  - rewrite (shortest_route_start fuel detour_map "A" "C" [("D", 1); ("B", 1)])
      by reflexivity.
    apply (while_nodes_runs_forever detour_map "C"
             (on_cycle2 "A" "B") detour_cycle_busy).
    split; [reflexivity|]. exists [("A", "D", 0)], 0. left. reflexivity.
Qed.

(** C9, on the map AB1, AC2, CA4 with the origin A and the station Z, which
    was never inserted: [get_route_distance] returns None and
    [find_routes_by_distance] returns the empty list, but
    [find_routes_by_stops] raises [RecursionError] whatever the bound on the
    stops and whatever depth is allowed, and [shortest_route] never leaves
    its loop. *)
Theorem unknown_destination_queries :
  Dict.mem "Z" test_map = false
  /\ get_route_distance test_map "A" ["Z"] = Ret None
  /\ (forall fuel, (16 <= fuel)%nat ->
        find_routes_by_distance fuel test_map "A" "Z" 15 = Ret [])
  /\ (forall fuel stops,
        find_routes_by_stops fuel test_map "A" "Z" stops FindModes.max
        = Raise RecursionError)
  /\ (forall fuel, shortest_route fuel test_map "A" "Z" = None).
Proof.
  split; [reflexivity|]. split; [reflexivity|]. split; [|split].
  - intros fuel Hfuel.
    apply (find_routes_by_distance_enough test_map 16 fuel); [exact Hfuel|].
    vm_compute. reflexivity.
  - intros fuel stops.
    apply (unreached_search_overflows test_map eq_refl eq_refl eq_refl "Z"
             eq_refl eq_refl eq_refl eq_refl (Z.to_nat stops) fuel stops).
    lia.
  - intros fuel.
    rewrite (shortest_route_start fuel test_map "A" "Z" [("B", 1); ("C", 2)])
      by reflexivity.
    apply (while_nodes_runs_forever test_map "Z"
             (on_cycle2 "A" "C") (test_cycle_busy "Z" eq_refl eq_refl)).
    split; [reflexivity|]. exists [("A", "B", 0)], 0. left. reflexivity.
Qed.

(** ** Route distance *)

(** C4, with a leg of distance zero: on the map AB5, BC0, which the parser
    accepts, every consecutive pair of A, B, C has an edge and the distances
    add up to 5, yet [get_route_distance('A', 'B', 'C')] returns None: the
    distance 0 of the rest of the route is taken for a missing route. *)
Theorem get_route_distance_zero_leg :
  validate_and_parse_route (Some "BC0") = Ret ("B", "C", 0)
  /\ walk_distance zero_leg_map "A" ["B"; "C"] = Some 5
  /\ get_route_distance zero_leg_map "B" ["C"] = Ret (Some 0)
  /\ get_route_distance zero_leg_map "A" ["B"; "C"] = Ret None.
Proof. repeat split. Qed.

(** ** Instances *)

(** C6: two instances built one after the other from separate lists of
    routes.  Before the second is built, the first does not know the
    station C; afterwards the same query on the first instance answers with
    the edge that was given to the second one only: both read the one
    dictionary of the class. *)
Theorem instances_share_routes :
  let '(st1, r1) := Railway startup (ArgList ["AB1"]) in
  let '(st2, r2) := Railway st1 (ArgList ["CD2"]) in
  exists first second,
    r1 = Ret first /\ r2 = Ret second /\ first <> second
    /\ self_routes st1 first = [("A", [("B", 1)]); ("B", [])]
    /\ get_route_distance (self_routes st1 first) "C" ["D"] = Raise KeyError
    /\ self_routes st2 first
       = [("A", [("B", 1)]); ("B", []); ("C", [("D", 2)]); ("D", [])]
    /\ get_route_distance (self_routes st2 first) "C" ["D"] = Ret (Some 2)
    /\ self_routes st2 second = self_routes st2 first.
Proof.
  cbv beta iota zeta. vm_compute.
  exists {| object_id := 0 |}, {| object_id := 1 |}.
  repeat split. discriminate.
Qed.


(** ** What [add_routes] maintains *)

Section SetFacts.
Context {V : Type}.
Implicit Types (d : Dict.t V) (k : string) (v : V).

Lemma get_set d k k' v :
  Dict.get k' (Dict.set k v d)
  = if String.eqb k' k then Some v else Dict.get k' d.
Proof.
  induction d as [|[k0 v0] rest IH]; cbn [Dict.set Dict.get].
  - reflexivity.
  - destruct (String.eqb_spec k k0) as [->|Hne]; cbn [Dict.get].
    + now destruct (String.eqb k' k0).
    + destruct (String.eqb_spec k' k0) as [->|Hne'].
      * destruct (String.eqb_spec k0 k); [congruence|reflexivity].
      * exact IH.
Qed.

Lemma mem_set d k k' v :
  Dict.mem k' (Dict.set k v d) = String.eqb k' k || Dict.mem k' d.
Proof.
  unfold Dict.mem. rewrite get_set. now destruct (String.eqb k' k).
Qed.

Lemma in_set d k v k' v' :
  In (k', v') (Dict.set k v d) -> (k' = k /\ v' = v) \/ In (k', v') d.
Proof.
  induction d as [|[k0 v0] rest IH]; cbn [Dict.set].
  - intros [[= <- <-]|[]]. now left.
  - destruct (String.eqb_spec k k0) as [->|Hne].
    + intros [[= <- <-]|Hin]; [now left|right; now right].
    + intros [Heq|Hin]; [right; now left|].
      destruct (IH Hin) as [Hnew|Hold]; [now left|right; now right].
Qed.

Lemma unique_keys_set d k v :
  unique_keys d = true -> unique_keys (Dict.set k v d) = true.
Proof.
  induction d as [|[k0 v0] rest IH]; cbn [Dict.set unique_keys]; [trivial|].
  intros Hu. apply andb_prop in Hu as [Hfresh Hu].
  destruct (String.eqb_spec k k0) as [->|Hne]; cbn [unique_keys].
  - now rewrite Hfresh, Hu.
  - rewrite (IH Hu), mem_set, andb_true_r.
    destruct (String.eqb_spec k0 k); [congruence|exact Hfresh].
Qed.
End SetFacts.

(** [well_formed], spelled out. *)
Lemma well_formed_iff (routes : graph) :
  well_formed routes = true <->
  unique_keys routes = true
  /\ forall origin from_origin,
       In (origin, from_origin) routes ->
       Str.falsy origin = false
       /\ unique_keys from_origin = true
       /\ forall destination distance,
            In (destination, distance) from_origin ->
            Dict.mem destination routes = true.
Proof.
  unfold well_formed. rewrite andb_true_iff, forallb_forall. split.
  - intros [Hu Hall]. split; [exact Hu|]. intros origin from_origin Hin.
    specialize (Hall _ Hin). cbv beta iota in Hall.
    rewrite !andb_true_iff, negb_true_iff, forallb_forall in Hall.
    destruct Hall as [[Hname Hunique] Hclosed]. repeat split; try assumption.
    intros destination distance Hd. exact (Hclosed _ Hd).
  - intros [Hu Hall]. split; [exact Hu|]. intros [origin from_origin] Hin.
    destruct (Hall _ _ Hin) as (Hname & Hunique & Hclosed).
    rewrite !andb_true_iff, negb_true_iff, forallb_forall.
    repeat split; try assumption. intros [destination distance] Hd.
    exact (Hclosed _ _ Hd).
Qed.

(** Binding a station to a dictionary of known destinations. *)
Lemma well_formed_set (routes : graph) (origin : station)
  (from_origin : Dict.t Z) :
  well_formed routes = true ->
  Str.falsy origin = false ->
  unique_keys from_origin = true ->
  (forall destination distance,
      In (destination, distance) from_origin ->
      Dict.mem destination (Dict.set origin from_origin routes) = true) ->
  well_formed (Dict.set origin from_origin routes) = true.
Proof.
  rewrite !well_formed_iff. intros [Hu Hall] Hname Hunique Hclosed.
  split; [now apply unique_keys_set|].
  intros o from_o Hin. apply in_set in Hin as [[-> ->]|Hin].
  - repeat split; assumption.
  - destruct (Hall _ _ Hin) as (Hname' & Hunique' & Hclosed').
    repeat split; try assumption. intros destination distance Hd.
    rewrite mem_set, (Hclosed' _ _ Hd). apply orb_true_r.
Qed.

Lemma add_route_well_formed (routes : graph) (origin destination : station)
  (distance : Z) :
  well_formed routes = true ->
  Str.falsy origin = false ->
  Str.falsy destination = false ->
  well_formed (add_route routes origin destination distance) = true.
Proof.
  intros Hwf Ho Hd. unfold add_route.
  set (routes1 := if negb (Dict.mem origin routes)
                  then Dict.set origin [] routes else routes).
  assert (Hwf1 : well_formed routes1 = true).
  { subst routes1. destruct (Dict.mem origin routes); cbn [negb]; [exact Hwf|].
    apply well_formed_set; try assumption; [reflexivity|]. intros ? ? []. }
  assert (Hmem1 : Dict.mem origin routes1 = true).
  { subst routes1. destruct (Dict.mem origin routes) eqn:Hm; cbn [negb];
      [exact Hm|]. now rewrite mem_set, String.eqb_refl. }
  clearbody routes1.
  set (routes2 := if negb (Dict.mem destination routes1)
                  then Dict.set destination [] routes1 else routes1).
  assert (Hwf2 : well_formed routes2 = true).
  { subst routes2. destruct (Dict.mem destination routes1); cbn [negb];
      [exact Hwf1|].
    apply well_formed_set; try assumption; [reflexivity|]. intros ? ? []. }
  assert (Hmem2 : Dict.mem origin routes2 = true
                  /\ Dict.mem destination routes2 = true).
  { subst routes2. destruct (Dict.mem destination routes1) eqn:Hm; cbn [negb].
    - now split.
    - rewrite !mem_set, Hmem1, String.eqb_refl. split; [apply orb_true_r|].
      reflexivity. }
  clearbody routes2. destruct Hmem2 as [Hmo Hmd].
  destruct (mem_get _ _ Hmo) as [from_origin Hget]. rewrite Hget.
  destruct (well_formed_entry routes2 Hwf2 _ _ Hget) as (_ & Hunique & Hclosed).
  apply well_formed_set; try assumption; [now apply unique_keys_set|].
  intros destination' distance' Hin. rewrite mem_set.
  apply in_set in Hin as [[-> ->]|Hin].
  - apply orb_true_iff. right. exact Hmd.
  - apply orb_true_iff. right. exact (Hclosed _ _ Hin).
Qed.

Lemma parsed_stations (route : option string) (origin destination : station)
  (distance : Z) :
  validate_and_parse_route route = Ret (origin, destination, distance) ->
  Str.falsy origin = false /\ Str.falsy destination = false.
Proof.
  destruct route as [[|c0 [|c1 [|c2 r]]]|]; try discriminate.
  rewrite validate_unfold. destruct (Str.int _); [|discriminate].
  cbn [bind]. destruct (negb _ || negb _); [discriminate|].
  intros [= <- <- _]. now split.
Qed.

(** Whatever the list of routes, valid or not, [add_routes] leaves a
    well-formed dictionary behind. *)
Lemma add_routes_dict_well_formed (route_list : list string) :
  forall routes,
    well_formed routes = true ->
    well_formed (fst (add_routes_dict routes route_list)) = true.
Proof.
  induction route_list as [|route rest IH]; intros routes Hwf;
    cbn [add_routes_dict]; [exact Hwf|].
  destruct (validate_and_parse_route (Some route))
    as [[[origin destination] distance]|e] eqn:Hparse; [|exact Hwf].
  destruct (parsed_stations _ _ _ _ Hparse) as [Ho Hd].
  apply IH. now apply add_route_well_formed.
Qed.

Lemma graph_of_well_formed (route_list : list string) :
  well_formed (graph_of route_list) = true.
Proof. now apply add_routes_dict_well_formed. Qed.

(** Every dictionary the class can hold is well-formed: constructing an
    instance, successfully or not, keeps it so. *)
Lemma Railway_well_formed (st : interpreter) (routes : routes_arg) :
  well_formed (class_routes st) = true ->
  well_formed (class_routes (fst (Railway st routes))) = true.
Proof.
  intros Hwf. unfold Railway, add_routes, self_routes.
  destruct routes as [s|l|]; cbn [class_routes]; [| |exact Hwf].
  - pose proof (add_routes_dict_well_formed
                  (map Str.strip (Str.split_comma s)) _ Hwf) as H.
    destruct (add_routes_dict _ _) as [routes r]. exact H.
  - pose proof (add_routes_dict_well_formed (map Str.strip l) _ Hwf) as H.
    destruct (add_routes_dict _ _) as [routes r]. exact H.
Qed.

(** ** Route distances and stop counts where the searches behave *)

Section PositiveDistances.
Variable routes : graph.
Hypothesis Hwf : well_formed routes = true.
Hypothesis Hpos : positive routes = true.

Lemma walk_distance_positive (stops : list station) :
  forall origin total,
    walk_distance routes origin stops = Some total ->
    0 <= total /\ (stops <> [] -> 0 < total).
Proof.
  induction stops as [|next more IH]; intros origin total; cbn [walk_distance].
  - intros [= <-]. split; [lia|congruence].
  - destruct (Dict.get origin routes) as [from_origin|] eqn:Hget; [|discriminate].
    destruct (Dict.get next from_origin) as [distance|] eqn:Hedge;
      [|discriminate].
    destruct (walk_distance routes next more) as [rest|] eqn:Hrest;
      [|discriminate].
    intros [= <-]. destruct (IH _ _ Hrest) as [Hge _].
    pose proof (positive_edge _ _ _ _ _ Hpos Hget (get_in _ _ _ Hedge)).
    split; intros; lia.
Qed.

(** With strictly positive distances, [get_route_distance] returns the sum
    of the distances along the stations given, and None exactly when some
    consecutive pair has no edge. *)
Lemma get_route_distance_positive (destinations : list station) :
  forall origin,
    destinations <> [] ->
    Dict.mem origin routes = true ->
    Forall (fun s => Str.falsy s = false) destinations ->
    get_route_distance routes origin destinations
    = Ret (walk_distance routes origin destinations).
Proof.
  induction destinations as [|destination more IH];
    intros origin Hne Horigin Hnames; [congruence|].
  apply Forall_cons_iff in Hnames as [Hname Hnames].
  destruct (mem_get _ _ Horigin) as [from_origin Hget].
  destruct (well_formed_entry routes Hwf _ _ Hget) as (Ho & _ & Hclosed).
  cbn [get_route_distance walk_distance]. rewrite Ho, Hname, Hget. cbn [orb].
  destruct (Dict.get destination from_origin) as [distance|] eqn:Hedge;
    [|reflexivity].
  destruct more as [|next more].
  - cbn [walk_distance]. now rewrite Z.add_0_r.
  - rewrite IH; [|discriminate|exact (Hclosed _ _ (get_in _ _ _ Hedge))
                 |exact Hnames].
    cbn [bind].
    destruct (walk_distance routes destination (next :: more)) as [rest|]
      eqn:Hrest; [|reflexivity].
    destruct (walk_distance_positive _ _ _ Hrest) as [_ Hlt].
    specialize (Hlt ltac:(discriminate)). cbn [falsy_distance].
    destruct (Z.eqb_spec rest 0); [lia|reflexivity].
Qed.
End PositiveDistances.

Section StopCounts.
Variable routes : graph.
Variable destination : station.

(** A search below one stop that returns has found nothing. *)
Lemma find_routes_by_stops_below_one_empty (fuel : nat) :
  forall origin stops mode found,
    stops <= 0 ->
    find_routes_by_stops fuel routes origin destination stops mode = Ret found ->
    found = [].
Proof.
  induction fuel as [|fuel IH]; intros origin stops mode found Hstops;
    [discriminate|].
  cbn [find_routes_by_stops].
  destruct (Str.falsy origin || Str.falsy destination); [discriminate|].
  destruct (Dict.get origin routes) as [from_origin|]; [|discriminate].
  replace (stops >=? 1) with false
    by (symmetry; rewrite Z.geb_leb; apply Z.leb_gt; lia).
  replace (stops =? 1) with false by (symmetry; apply Z.eqb_neq; lia).
  rewrite !andb_false_r. cbn [orb negb andb].
  destruct (List.length from_origin =? 0)%nat; [now intros [= <-]|].
  apply (for_each_invariant (fun found => found = [])); [|reflexivity].
  intros [next_stop distance] acc acc' _ ->.
  destruct (find_routes_by_stops fuel routes next_stop destination _ mode)
    as [subroutes|e] eqn:Hsub; [|discriminate].
  apply IH in Hsub; [|lia]. subst subroutes. now intros [= <-].
Qed.

(** Two runs of a loop over the same list, the second never adding fewer
    results than the first. *)
Lemma for_each_counts {A B : Type} (xs : list A)
  (body1 body2 : A -> list B -> result (list B)) :
  (forall x s1 s2 s1' s2',
      In x xs ->
      (List.length s1 <= List.length s2)%nat ->
      body1 x s1 = Ret s1' -> body2 x s2 = Ret s2' ->
      (List.length s1' <= List.length s2')%nat) ->
  forall s1 s2 s1' s2',
    (List.length s1 <= List.length s2)%nat ->
    for_each xs body1 s1 = Ret s1' -> for_each xs body2 s2 = Ret s2' ->
    (List.length s1' <= List.length s2')%nat.
Proof.
  induction xs as [|x rest IH]; intros Hbody s1 s2 s1' s2' Hle; cbn [for_each].
  - now intros [= <-] [= <-].
  - destruct (body1 x s1) as [t1|] eqn:H1; [|discriminate].
    destruct (body2 x s2) as [t2|] eqn:H2; [|discriminate].
    cbn [bind]. apply IH.
    + intros y u1 u2 u1' u2' Hy. apply Hbody. now right.
    + exact (Hbody x s1 s2 t1 t2 (or_introl eq_refl) Hle H1 H2).
Qed.

(** In mode [max], whenever the searches with [stops] and with [stops + 1]
    both return, the second has at least as many results. *)
Lemma find_routes_by_stops_count_monotone (fuel : nat) :
  forall origin stops found found',
    1 <= stops ->
    find_routes_by_stops fuel routes origin destination stops FindModes.max
    = Ret found ->
    find_routes_by_stops fuel routes origin destination (stops + 1)
      FindModes.max
    = Ret found' ->
    (List.length found <= List.length found')%nat.
Proof.
  induction fuel as [|fuel IH]; intros origin stops found found' Hstops;
    [discriminate|].
  cbn [find_routes_by_stops].
  destruct (Str.falsy origin || Str.falsy destination); [discriminate|].
  destruct (Dict.get origin routes) as [from_origin|]; [|discriminate].
  replace (stops >=? 1) with true
    by (symmetry; rewrite Z.geb_leb; apply Z.leb_le; lia).
  replace (stops + 1 >=? 1) with true
    by (symmetry; rewrite Z.geb_leb; apply Z.leb_le; lia).
  cbn [FindModes.eqb andb orb].
  destruct (Dict.get destination from_origin) as [distance|];
    [now intros [= <-] [= <-]|].
  replace (stops + 1 =? 1) with false by (symmetry; apply Z.eqb_neq; lia).
  cbn [negb andb].
  destruct from_origin as [|edge edges];
    [destruct (negb (stops =? 1)); now intros [= <-] [= <-]|].
  cbn [List.length Nat.eqb]. rewrite andb_false_r.
  apply for_each_counts; [|reflexivity].
  intros [next_stop distance] s1 s2 s1' s2' _ Hle.
  replace (stops + 1 - 1) with stops by lia.
  destruct (find_routes_by_stops fuel routes next_stop destination (stops - 1) _)
    as [subroutes|] eqn:Hsub; [|discriminate].
  destruct (find_routes_by_stops fuel routes next_stop destination stops _)
    as [subroutes'|] eqn:Hsub'; [|discriminate].
  cbn [bind]. intros [= <-] [= <-]. rewrite !length_app, !length_map.
  apply Nat.add_le_mono; [exact Hle|].
  destruct (Z.eq_dec stops 1) as [->|Hne].
  - apply find_routes_by_stops_below_one_empty in Hsub; [|lia].
    subst subroutes. cbn [List.length]. lia.
  - apply (IH next_stop (stops - 1) subroutes subroutes'); [lia|exact Hsub|].
    now replace (stops - 1 + 1) with stops by lia.
Qed.
End StopCounts.


(** ** Shortest route: what the loop returns when it ends *)

Lemma last_cons {A : Type} (x d : A) (l : list A) : last (x :: l) d = last l x.
Proof.
  destruct l as [|y rest]; [reflexivity|].
  change (last (y :: rest) d = last (y :: rest) x).
  apply last_default. discriminate.
Qed.

Lemma walk_distance_app (routes : graph) (pre post : list station) :
  forall origin,
    walk_distance routes origin (pre ++ post)
    = match walk_distance routes origin pre with
      | Some a =>
          match walk_distance routes (last pre origin) post with
          | Some b => Some (a + b)
          | None => None
          end
      | None => None
      end.
Proof.
  induction pre as [|x pre IH]; intros origin.
  - cbn [app walk_distance last].
    now destruct (walk_distance routes origin post).
  - rewrite last_cons. cbn [app walk_distance]. rewrite IH.
    destruct (Dict.get origin routes) as [from_origin|]; [|reflexivity].
    destruct (Dict.get x from_origin) as [distance|]; [|reflexivity].
    destruct (walk_distance routes x pre) as [a|]; [|reflexivity].
    destruct (walk_distance routes (last pre x) post) as [b|]; [|reflexivity].
    f_equal. lia.
Qed.

Lemma pop_some {A : Type} (l rest : list A) (x : A) :
  pop l = Some (rest, x) -> l = rest ++ [x].
Proof.
  revert rest. induction l as [|y l IH]; intros rest; cbn [pop];
    [discriminate|].
  destruct (pop l) as [[rest' z]|] eqn:Hpop.
  - intros [= <- <-]. now rewrite (IH rest' eq_refl).
  - intros [= <- <-]. destruct l as [|z l]; [reflexivity|].
    cbn [pop] in Hpop. now destruct (pop l) as [[? ?]|].
Qed.

Lemma pop_none {A : Type} (l : list A) : pop l = None -> l = [].
Proof.
  destruct l as [|x l]; [reflexivity|]. cbn [pop].
  now destruct (pop l) as [[? ?]|].
Qed.

(** The nodes after the expansion of a station: those that were there and,
    as soon as the station has an outgoing edge, one per outgoing edge
    (each of them several times). *)
Lemma expansion_in {A B : Type} (x : A) (extra : list A) (keys : list B) :
  forall nodes,
    In x (fold_left (fun nodes (_ : B) => nodes ++ extra) keys nodes)
    <-> In x nodes \/ (keys <> [] /\ In x extra).
Proof.
  induction keys as [|k keys IH]; intros nodes; cbn [fold_left].
  - split; [now left|]. intros [H|[H _]]; [exact H|congruence].
  - rewrite IH, in_app_iff. split.
    + intros [[H|H]|[_ H]]; [now left| |]; right; (split; [discriminate|exact H]).
    + intros [H|[_ H]]; left; [now left|now right].
Qed.

Lemma less_than_smaller (a b : Z) (shortest : number) :
  a <= b -> less_than b shortest = true -> less_than a shortest = true.
Proof.
  destruct shortest as [n|]; cbn [less_than]; [|trivial].
  rewrite !Z.ltb_lt. lia.
Qed.

Lemma less_than_min (total distance : Z) (shortest : number) :
  less_than total (min_number shortest distance) = true ->
  less_than total shortest = true /\ total < distance.
Proof.
  destruct shortest as [n|]; cbn [min_number less_than].
  - destruct (Z.ltb_spec distance n); cbn [less_than]; rewrite !Z.ltb_lt; lia.
  - rewrite Z.ltb_lt. now split.
Qed.

Lemma min_number_improves (distance : Z) (shortest : number) :
  less_than distance shortest = true ->
  min_number shortest distance = Int distance.
Proof.
  destruct shortest as [n|]; cbn [min_number less_than]; [|reflexivity].
  now intros ->.
Qed.

Section ShortestInvariant.
Variable routes : graph.
Hypothesis Hpos : positive routes = true.
Variables origin destination : station.

(** A walk that goes through the edge [o -> d] after a prefix of distance
    [k]. *)
Lemma walk_through (pre post : list station) (d : station)
  (from_o : Dict.t Z) (total k edge : Z) :
  walk_distance routes origin (pre ++ d :: post) = Some total ->
  walk_distance routes origin pre = Some k ->
  Dict.get (last pre origin) routes = Some from_o ->
  Dict.get d from_o = Some edge ->
  exists c,
    walk_distance routes d post = Some c /\ 0 <= c /\ total = k + (edge + c).
Proof.
  intros Hwalk Hk Ho Hedge. rewrite walk_distance_app, Hk in Hwalk.
  cbn [walk_distance] in Hwalk. rewrite Ho, Hedge in Hwalk.
  destruct (walk_distance routes d post) as [c|] eqn:Hc; [|discriminate].
  injection Hwalk as <-. exists c. split; [reflexivity|]. split; [|reflexivity].
  exact (proj1 (walk_distance_positive routes Hpos _ _ _ Hc)).
Qed.

(** The walk to a station, one edge further. *)
Lemma walk_further (pre : list station) (d : station) (from_o : Dict.t Z)
  (k edge : Z) :
  walk_distance routes origin pre = Some k ->
  Dict.get (last pre origin) routes = Some from_o ->
  Dict.get d from_o = Some edge ->
  walk_distance routes origin (pre ++ [d]) = Some (edge + k)
  /\ last (pre ++ [d]) origin = d.
Proof.
  intros Hk Ho Hedge. split; [|apply last_last].
  rewrite walk_distance_app, Hk. cbn [walk_distance]. rewrite Ho, Hedge.
  f_equal. lia.
Qed.

Lemma visit_keeps_invariant (rest : list node) (shortest : number) (n : node)
  (nodes' : list node) (shortest' : number) :
  search_invariant routes origin destination (rest ++ [n]) shortest ->
  visit routes destination rest shortest n = Ret (nodes', shortest') ->
  search_invariant routes origin destination nodes' shortest'.
Proof.
  intros (Hreached & Hsound & Hcomplete). destruct n as [[o d] k].
  apply Forall_app in Hreached as [Hrest Hn].
  apply Forall_inv in Hn. destruct Hn as (pre0 & Hlast0 & Hk0).
  unfold visit.
  destruct (Dict.get o routes) as [from_o|] eqn:Ho; [|discriminate].
  destruct (Dict.get d from_o) as [edge|] eqn:Hedge; [|discriminate].
  destruct (less_than (edge + k) shortest) eqn:Hlt.
  - destruct (Dict.get d routes) as [from_d|] eqn:Hd; [|discriminate].
    intros [= <- <-].
    assert (Ho0 : Dict.get (last pre0 origin) routes = Some from_o)
      by now rewrite Hlast0.
    destruct (walk_further pre0 d from_o k edge Hk0 Ho0 Hedge)
      as [Hwalk0 Hend0].
    split; [|split].
    + rewrite Forall_forall in *. intros x Hx.
      apply expansion_in in Hx as [Hx|[_ Hx]]; [now apply Hrest|].
      apply in_map_iff in Hx as (stop & <- & _).
      exists (pre0 ++ [d]). now split.
    + destruct (String.eqb_spec d destination) as [<-|_]; [|exact Hsound].
      rewrite (min_number_improves _ _ Hlt). exists (pre0 ++ [d]).
      split; [now destruct pre0|]. now split.
    + intros stops total Hwalk Hshorter.
      assert (Hbefore : less_than total shortest = true).
      { destruct (String.eqb d destination); [|exact Hshorter].
        now apply less_than_min in Hshorter. }
      destruct (Hcomplete stops total Hwalk Hbefore)
        as (pre & e & post & kk & -> & Hkk & Hin).
      apply in_app_iff in Hin as [Hin|[[= Hlast <- <-]|[]]].
      * exists pre, e, post, kk. split; [reflexivity|]. split; [exact Hkk|].
        apply expansion_in. now left.
      * destruct Hwalk as (_ & Hend & Hwalk).
        assert (Ho1 : Dict.get (last pre origin) routes = Some from_o)
          by now rewrite <- Hlast.
        destruct (walk_through pre post d from_o total k edge Hwalk Hkk Ho1
                    Hedge) as (c & Hc & Hc0 & ->).
        destruct post as [|next post].
        -- exfalso. rewrite last_last in Hend. subst destination.
           rewrite String.eqb_refl in Hshorter.
           apply less_than_min in Hshorter as [_ Hshorter].
           cbn [walk_distance] in Hc. injection Hc as <-. lia.
        -- destruct (walk_further pre d from_o k edge Hkk Ho1 Hedge)
             as [Hwalk1 Hend1].
           exists (pre ++ [d]), next, post, (edge + k).
           split; [now rewrite <- app_assoc|]. split; [exact Hwalk1|].
           rewrite Hend1. apply expansion_in. right.
           cbn [walk_distance] in Hc. rewrite Hd in Hc.
           destruct (Dict.get next from_d) as [w|] eqn:Hnext; [|discriminate].
           apply get_in in Hnext.
           assert (Hkey : In next (Dict.keys from_d))
             by (apply in_map_iff; now exists (next, w)).
           split; [now destruct (Dict.keys from_d)|].
           apply in_map_iff. now exists next.
  - intros [= <- <-]. split; [exact Hrest|]. split; [exact Hsound|].
    intros stops total Hwalk Hshorter.
    destruct (Hcomplete stops total Hwalk Hshorter)
      as (pre & e & post & kk & -> & Hkk & Hin).
    apply in_app_iff in Hin as [Hin|[[= Hlast <- <-]|[]]].
    + now exists pre, e, post, kk.
    + exfalso. destruct Hwalk as (_ & _ & Hwalk).
      assert (Ho1 : Dict.get (last pre origin) routes = Some from_o)
        by now rewrite <- Hlast.
      destruct (walk_through pre post d from_o total k edge Hwalk Hkk Ho1 Hedge)
        as (c & _ & Hc0 & ->).
      rewrite (less_than_smaller (edge + k) (k + (edge + c)) shortest)
        in Hlt; [discriminate|lia|exact Hshorter].
Qed.

Lemma while_nodes_keeps_invariant (fuel : nat) :
  forall nodes shortest result,
    search_invariant routes origin destination nodes shortest ->
    while_nodes fuel routes destination nodes shortest = Some (Ret result) ->
    search_invariant routes origin destination [] result.
Proof.
  induction fuel as [|fuel IH]; intros nodes shortest result Hinv;
    cbn [while_nodes]; destruct (pop nodes) as [[rest n]|] eqn:Hpop;
    try discriminate.
  - intros [= <-]. now rewrite (pop_none _ Hpop) in Hinv.
  - apply pop_some in Hpop. subst nodes.
    destruct (visit routes destination rest shortest n)
      as [[nodes' shortest']|e] eqn:Hvisit; [|discriminate].
    apply IH. exact (visit_keeps_invariant _ _ _ _ _ Hinv Hvisit).
  - intros [= <-]. now rewrite (pop_none _ Hpop) in Hinv.
Qed.

(** The state in which [shortest_route] enters its loop. *)
Lemma initial_invariant (from_origin : Dict.t Z) :
  Dict.get origin routes = Some from_origin ->
  search_invariant routes origin destination
    (map (fun stop => (origin, stop, 0)) (Dict.keys from_origin))
    match Dict.get destination from_origin with
    | Some distance => Int distance
    | None => Inf
    end.
Proof.
  intros Hget. split; [|split].
  - apply Forall_forall. intros x Hx. apply in_map_iff in Hx as (stop & <- & _).
    now exists [].
  - destruct (Dict.get destination from_origin) as [distance|] eqn:Hedge;
      [|exact I].
    exists [destination]. split; [discriminate|]. split; [reflexivity|].
    cbn [walk_distance]. rewrite Hget, Hedge. f_equal. lia.
  - intros stops total (Hne & _ & Hwalk) _.
    destruct stops as [|next post]; [congruence|].
    exists [], next, post, 0. split; [reflexivity|]. split; [reflexivity|].
    cbn [walk_distance] in Hwalk. rewrite Hget in Hwalk.
    destruct (Dict.get next from_origin) as [w|] eqn:Hnext; [|discriminate].
    apply get_in in Hnext. apply in_map_iff. exists next. split; [reflexivity|].
    apply in_map_iff. now exists (next, w).
Qed.

(** Whenever [shortest_route] returns, it returns the minimum distance over
    the walks of at least one edge from the origin to the destination, and
    +infinity exactly when there is no such walk. *)
Lemma shortest_route_minimum (fuel : nat) (result : number) :
  shortest_route fuel routes origin destination = Some (Ret result) ->
  (forall stops total,
      walk_to routes origin destination stops total ->
      less_than total result = false)
  /\ match result with
     | Inf => True
     | Int n => exists stops, walk_to routes origin destination stops n
     end.
Proof.
  unfold shortest_route.
  destruct (Str.falsy origin || Str.falsy destination); [discriminate|].
  destruct (Dict.get origin routes) as [from_origin|] eqn:Hget; [|discriminate].
  intros Hrun.
  destruct (while_nodes_keeps_invariant fuel _ _ _
              (initial_invariant from_origin Hget) Hrun)
    as (_ & Hsound & Hcomplete).
  split; [|exact Hsound]. intros stops total Hwalk.
  destruct (less_than total result) eqn:Hlt; [|reflexivity].
  destruct (Hcomplete stops total Hwalk Hlt) as (? & ? & ? & ? & _ & _ & []).
Qed.
End ShortestInvariant.


(** * Further properties of the class *)

(** ** Insertion *)

Lemma get_ensure (routes : graph) (k k' : station) :
  Dict.get k (if negb (Dict.mem k' routes) then Dict.set k' [] routes
              else routes)
  = if String.eqb k k'
    then Some match Dict.get k' routes with
              | Some from_k => from_k
              | None => []
              end
    else Dict.get k routes.
Proof.
  unfold Dict.mem. destruct (Dict.get k' routes) as [from_k|] eqn:Hk;
    cbn [negb].
  - destruct (String.eqb_spec k k') as [->|_]; [exact Hk|reflexivity].
  - apply get_set.
Qed.

Lemma edge_distance_ensure (routes : graph) (k o d : station) :
  edge_distance (if negb (Dict.mem k routes) then Dict.set k [] routes
                 else routes) o d
  = edge_distance routes o d.
Proof.
  unfold edge_distance. rewrite get_ensure.
  destruct (String.eqb_spec o k) as [->|_]; [|reflexivity].
  now destruct (Dict.get k routes).
Qed.

Lemma mem_ensure (routes : graph) (k k' : station) :
  Dict.mem k (if negb (Dict.mem k' routes) then Dict.set k' [] routes
              else routes)
  = String.eqb k k' || Dict.mem k routes.
Proof.
  unfold Dict.mem at 1. rewrite get_ensure.
  destruct (String.eqb k k'); reflexivity.
Qed.

(** The edges and the stations after one iteration of [add_routes]. *)
Lemma add_route_edges (routes : graph) (origin destination : station)
  (distance : Z) :
  (forall o d,
      edge_distance (add_route routes origin destination distance) o d
      = if String.eqb o origin && String.eqb d destination then Some distance
        else edge_distance routes o d)
  /\ (forall k,
        Dict.mem k (add_route routes origin destination distance)
        = String.eqb k origin || String.eqb k destination
          || Dict.mem k routes).
Proof.
  unfold add_route.
  set (routes1 := if negb (Dict.mem origin routes)
                  then Dict.set origin [] routes else routes).
  set (routes2 := if negb (Dict.mem destination routes1)
                  then Dict.set destination [] routes1 else routes1).
  assert (Hedges : forall o d,
             edge_distance routes2 o d = edge_distance routes o d).
  { intros o d. subst routes2 routes1. now rewrite !edge_distance_ensure. }
  assert (Hmem : forall k,
             Dict.mem k routes2
             = String.eqb k origin || String.eqb k destination
               || Dict.mem k routes).
  { intros k. subst routes2 routes1. rewrite !mem_ensure.
    destruct (String.eqb k origin), (String.eqb k destination); reflexivity. }
  clearbody routes2. clear routes1. unfold edge_distance, Dict.t in *.
  destruct (Dict.get origin routes2) as [from_origin|] eqn:Hget.
  - split.
    + intros o d. rewrite get_set.
      destruct (String.eqb_spec o origin) as [->|_]; cbn [andb].
      * rewrite get_set. destruct (String.eqb d destination); [reflexivity|].
        rewrite <- Hedges. now rewrite Hget.
      * apply Hedges.
    + intros k. rewrite mem_set, Hmem.
      destruct (String.eqb k origin); reflexivity.
  - exfalso. specialize (Hmem origin). unfold Dict.mem at 1 in Hmem.
    rewrite Hget, String.eqb_refl in Hmem. discriminate.
Qed.

(** X1: what one iteration of [add_routes] stores.  Afterwards the edge
    from [origin] to [destination] has the distance given (the last write
    wins), every other edge is as before, and the stations known are those
    known before together with [origin] and [destination]. *)
Theorem add_route_lookup (routes : graph) (origin destination : station)
  (distance : Z) :
  (forall o d,
      edge_distance (add_route routes origin destination distance) o d
      = if String.eqb o origin && String.eqb d destination then Some distance
        else edge_distance routes o d)
  /\ (forall k,
        Dict.mem k (add_route routes origin destination distance)
        = String.eqb k origin || String.eqb k destination
          || Dict.mem k routes).
Proof. exact (add_route_edges routes origin destination distance). Qed.

Lemma keys_set {V : Type} (d : Dict.t V) (k : string) (v : V) :
  Dict.keys (Dict.set k v d)
  = if Dict.mem k d then Dict.keys d else Dict.keys d ++ [k].
Proof.
  unfold Dict.mem, Dict.keys.
  induction d as [|[k0 v0] rest IH]; cbn [Dict.set Dict.get map fst app];
    [reflexivity|].
  destruct (String.eqb_spec k k0) as [->|_]; [reflexivity|].
  cbn [map fst]. rewrite IH. now destruct (Dict.get k rest).
Qed.

Lemma keys_ensure (routes : graph) (k : station) :
  Dict.keys (if negb (Dict.mem k routes) then Dict.set k [] routes else routes)
  = Dict.keys routes ++ (if Dict.mem k routes then [] else [k]).
Proof.
  unfold graph, Dict.t in *.
  destruct (Dict.mem k routes) eqn:Hk; cbn [negb].
  - now rewrite app_nil_r.
  - now rewrite keys_set, Hk.
Qed.

(** X2: insertion never reorders.  One iteration of [add_routes] leaves the
    stations in the order in which they were first seen and puts a new
    origin, then a new destination, last; the destinations of the origin
    keep their order too, a new one going last.  The searches iterate in
    this order. *)
Theorem add_route_keeps_order (routes : graph) (origin destination : station)
  (distance : Z) :
  Dict.keys (add_route routes origin destination distance)
  = Dict.keys routes
    ++ (if Dict.mem origin routes then [] else [origin])
    ++ (if String.eqb destination origin || Dict.mem destination routes
        then [] else [destination])
  /\ exists from_origin from_origin',
       from_origin = match Dict.get origin routes with
                     | Some from_origin => from_origin
                     | None => []
                     end
       /\ Dict.get origin (add_route routes origin destination distance)
          = Some from_origin'
       /\ Dict.keys from_origin'
          = Dict.keys from_origin
            ++ (if Dict.mem destination from_origin then [] else [destination]).
Proof.
  unfold add_route.
  set (routes1 := if negb (Dict.mem origin routes)
                  then Dict.set origin [] routes else routes).
  set (routes2 := if negb (Dict.mem destination routes1)
                  then Dict.set destination [] routes1 else routes1).
  set (from_origin := match Dict.get origin routes with
                      | Some from_origin => from_origin
                      | None => []
                      end).
  assert (Hkeys : Dict.keys routes2
                  = Dict.keys routes
                    ++ (if Dict.mem origin routes then [] else [origin])
                    ++ (if String.eqb destination origin
                           || Dict.mem destination routes
                        then [] else [destination])).
  { subst routes2 routes1. now rewrite !keys_ensure, mem_ensure, app_assoc. }
  assert (Hget : Dict.get origin routes2 = Some from_origin).
  { subst routes2 routes1 from_origin. rewrite !get_ensure, String.eqb_refl.
    destruct (String.eqb_spec origin destination) as [<-|_]; [|reflexivity].
    now rewrite String.eqb_refl. }
  clearbody routes2 from_origin. clear routes1. unfold Dict.t in *.
  rewrite Hget. split.
  - rewrite keys_set. unfold Dict.mem. now rewrite Hget.
  - exists from_origin, (Dict.set destination distance from_origin).
    split; [reflexivity|]. split.
    + now rewrite get_set, String.eqb_refl.
    + rewrite keys_set. now destruct (Dict.mem destination from_origin);
        rewrite ?app_nil_r.
Qed.

Lemma validate_raises_value_error (route : option string) (e : exn) :
  validate_and_parse_route route = Raise e -> e = ValueError.
Proof.
  destruct route as [[|c0 [|c1 [|c2 r]]]|]; try (now intros [= <-]).
  rewrite validate_unfold.
  destruct (Str.int (String c2 r)) as [n|e'] eqn:Hint; cbn [bind].
  - destruct (negb _ || negb _); [now intros [= <-]|discriminate].
  - intros [= <-]. exact (int_raises_value_error _ _ Hint).
Qed.

(** X3: [add_routes] composes.  Adding the routes of two lists one after the
    other is adding their concatenation, and an exception raised by the
    first list leaves the second one untouched. *)
Theorem add_routes_dict_app (first second : list string) :
  forall routes,
    add_routes_dict routes (first ++ second)
    = match add_routes_dict routes first with
      | (routes', Ret _) => add_routes_dict routes' second
      | (routes', Raise e) => (routes', Raise e)
      end.
Proof.
  induction first as [|route rest IH]; intros routes;
    cbn [app add_routes_dict]; [reflexivity|].
  now destruct (validate_and_parse_route (Some route))
    as [[[origin destination] distance]|e].
Qed.

(** X4: [add_routes] is not atomic.  When it raises, the exception is a
    [ValueError] caused by the first malformed route of the list; the routes
    before it have been stored, exactly as if they had been given alone,
    and none of the routes after it has. *)
Theorem add_routes_stops_at_first_malformed (route_list : list string) :
  forall routes routes' e,
    add_routes_dict routes route_list = (routes', Raise e) ->
    e = ValueError
    /\ exists good bad rest,
         route_list = good ++ bad :: rest
         /\ validate_and_parse_route (Some bad) = Raise ValueError
         /\ add_routes_dict routes good = (routes', Ret tt).
Proof.
  induction route_list as [|route rest IH]; intros routes routes' e;
    cbn [add_routes_dict]; [discriminate|].
  destruct (validate_and_parse_route (Some route))
    as [[[origin destination] distance]|e'] eqn:Hparse.
  - intros Hrun. destruct (IH _ _ _ Hrun) as (-> & good & bad & rest' & -> & Hbad & Hgood).
    split; [reflexivity|]. exists (route :: good), bad, rest'.
    split; [reflexivity|]. split; [exact Hbad|].
    cbn [add_routes_dict]. now rewrite Hparse.
  - intros [= <- <-]. pose proof (validate_raises_value_error _ _ Hparse) as ->.
    split; [reflexivity|]. now exists [], route, rest.
Qed.

Lemma add_routes_stops_at_first_malformed_witness :
  ValueError = ValueError
  /\ exists good bad rest,
       ["AB1"; "AC2"; "zA4"; "CD1"] = good ++ bad :: rest
       /\ validate_and_parse_route (Some bad) = Raise ValueError
       /\ add_routes_dict [] good
          = ([("A", [("B", 1); ("C", 2)]); ("B", []); ("C", [])], Ret tt).
Proof.
  apply (add_routes_stops_at_first_malformed ["AB1"; "AC2"; "zA4"; "CD1"] []).
  reflexivity.
Defined.

(** ** Construction from a string *)

Lemma rev_acc_rev_acc (s a b : string) :
  Str.rev_acc (Str.rev_acc s a) b = Str.rev_acc a (s ++ b)%string.
Proof.
  revert a b. induction s as [|c r IH]; intros a b; cbn [Str.rev_acc append];
    [reflexivity|].
  now rewrite IH.
Qed.

Lemma split_acc_token (t : string) :
  comma_free t = true ->
  forall rest field,
    Str.split_acc (t ++ rest)%string field
    = Str.split_acc rest (Str.rev_acc t field).
Proof.
  induction t as [|c r IH]; intros Hfree rest field;
    cbn [append Str.split_acc Str.rev_acc comma_free] in *; [reflexivity|].
  apply andb_prop in Hfree as [Hc Hr]. apply negb_true_iff in Hc.
  rewrite Hc. now apply IH.
Qed.

Lemma split_acc_last (t : string) :
  comma_free t = true ->
  forall field, Str.split_acc t field = [Str.rev_acc field t].
Proof.
  induction t as [|c r IH]; intros Hfree field;
    cbn [Str.split_acc comma_free] in *.
  - unfold Str.rev. destruct field; reflexivity.
  - apply andb_prop in Hfree as [Hc Hr]. apply negb_true_iff in Hc.
    rewrite Hc, (IH Hr). reflexivity.
Qed.

Lemma split_acc_join (tokens : list string) :
  forall token field,
    forallb comma_free (token :: tokens) = true ->
    Str.split_acc (comma_join (token :: tokens)) field
    = Str.rev_acc field token :: map (String " ") tokens.
Proof.
  induction tokens as [|next tokens IH]; intros token field Hfree;
    cbn [forallb] in Hfree; apply andb_prop in Hfree as [Htoken Hrest].
  - now apply split_acc_last.
  - change (comma_join (token :: next :: tokens))
      with (token ++ String "," (String " " (comma_join (next :: tokens))))%string.
    rewrite (split_acc_token token Htoken). cbn [Str.split_acc Ascii.eqb Bool.eqb].
    unfold Str.rev. rewrite rev_acc_rev_acc. cbn [Str.rev_acc].
    rewrite (IH next " " Hrest). cbn [map Str.rev_acc].
    f_equal. f_equal. clear. induction token as [|c r IH]; cbn [append];
      [reflexivity|]. now rewrite IH.
Qed.

(** X5: the two forms of the argument of the constructor agree.  Tokens
    that hold no comma, joined with ", " into one string, build the same
    instance and the same dictionary as the list of these tokens; the empty
    string, though, is one empty route and raises [ValueError], while the
    empty list adds nothing and succeeds. *)
Theorem Railway_string_or_list (st : interpreter) :
  (forall tokens,
      tokens <> [] ->
      forallb comma_free tokens = true ->
      Railway st (ArgStr (comma_join tokens)) = Railway st (ArgList tokens))
  /\ snd (Railway st (ArgStr "")) = Raise ValueError
  /\ Railway st (ArgList [])
     = ({| class_routes := class_routes st;
           next_object := S (next_object st) |},
        Ret {| object_id := next_object st |}).
Proof.
  split; [|split; reflexivity].
  intros [|token tokens] Hne Hfree; [congruence|].
  unfold Railway. unfold Str.split_comma.
  rewrite (split_acc_join tokens token "" Hfree). cbn [Str.rev_acc map].
  rewrite map_map.
  replace (map (fun u => Str.strip (String " " u)) tokens)
    with (map Str.strip tokens); [reflexivity|].
  apply map_ext. reflexivity.
Qed.

Lemma Railway_string_or_list_witness :
  Railway startup (ArgStr "AB5, BC4, CD8")
  = Railway startup (ArgList ["AB5"; "BC4"; "CD8"]).
Proof.
  apply (proj1 (Railway_string_or_list startup) ["AB5"; "BC4"; "CD8"]).
  - discriminate.
  - reflexivity.
Defined.

(** ** Arguments the queries reject *)

(** X6: the four queries check their arguments in the same order.  An
    empty origin or destination raises [ValueError], whether the origin is
    on the map or not; otherwise an origin that is not on the map raises
    [KeyError]. *)
Theorem queries_reject_bad_stations (routes : graph)
  (origin destination : station) (more : list station) (fuel : nat)
  (stops max_distance : Z) (mode : FindModes.t) :
  (Str.falsy origin || Str.falsy destination = true ->
   get_route_distance routes origin (destination :: more) = Raise ValueError
   /\ find_routes_by_stops (S fuel) routes origin destination stops mode
      = Raise ValueError
   /\ find_routes_by_distance (S fuel) routes origin destination max_distance
      = Raise ValueError
   /\ shortest_route fuel routes origin destination = Some (Raise ValueError))
  /\ (Str.falsy origin || Str.falsy destination = false ->
      Dict.mem origin routes = false ->
      get_route_distance routes origin (destination :: more) = Raise KeyError
      /\ find_routes_by_stops (S fuel) routes origin destination stops mode
         = Raise KeyError
      /\ find_routes_by_distance (S fuel) routes origin destination max_distance
         = Raise KeyError
      /\ shortest_route fuel routes origin destination = Some (Raise KeyError)).
Proof.
  unfold shortest_route, Dict.mem.
  cbn [get_route_distance find_routes_by_stops find_routes_by_distance].
  split.
  - intros ->. now repeat split.
  - intros ->. destruct (Dict.get origin routes); [discriminate|].
    now repeat split.
Qed.

Lemma queries_reject_bad_stations_witness :
  get_route_distance test_map "D" ["A"] = Raise KeyError
  /\ find_routes_by_stops 1 test_map "D" "A" 5 FindModes.max = Raise KeyError
  /\ find_routes_by_distance 1 test_map "D" "A" 5 = Raise KeyError
  /\ shortest_route 0 test_map "D" "A" = Some (Raise KeyError).
Proof.
  apply (proj2 (queries_reject_bad_stations test_map "D" "A" [] 0 5 5
                  FindModes.max)); reflexivity.
Defined.


(** ** Route distance on any map *)

(** X7: on every map that [add_routes] can build, for a known origin and
    non-empty station names, [get_route_distance] raises nothing; a number
    it returns is the sum of the distances along the stations given, and a
    route with a missing edge gives None.  (None may also stand for a route
    whose remaining distance is 0.) *)
Theorem get_route_distance_sound (routes : graph) :
  well_formed routes = true ->
  forall destinations origin,
    destinations <> [] ->
    Dict.mem origin routes = true ->
    Forall (fun s => Str.falsy s = false) destinations ->
    exists r,
      get_route_distance routes origin destinations = Ret r
      /\ (forall n, r = Some n ->
                    walk_distance routes origin destinations = Some n)
      /\ (walk_distance routes origin destinations = None -> r = None).
Proof.
  intros Hwf.
  induction destinations as [|destination more IH];
    intros origin Hne Horigin Hnames; [congruence|].
  apply Forall_cons_iff in Hnames as [Hname Hnames].
  destruct (mem_get _ _ Horigin) as [from_origin Hget].
  destruct (well_formed_entry routes Hwf _ _ Hget) as (Ho & _ & Hclosed).
  cbn [get_route_distance walk_distance]. rewrite Ho, Hname, Hget. cbn [orb].
  destruct (Dict.get destination from_origin) as [distance|] eqn:Hedge.
  2:{ exists None. now repeat split. }
  destruct more as [|next more].
  - exists (Some distance). cbn [walk_distance]. rewrite Z.add_0_r.
    split; [reflexivity|]. split; [now intros n [= <-]|discriminate].
  - destruct (IH destination ltac:(discriminate)
                (Hclosed _ _ (get_in _ _ _ Hedge)) Hnames)
      as (r & -> & Hsome & Hnone).
    cbn [bind].
    destruct (walk_distance routes destination (next :: more)) as [rest|].
    + destruct r as [n|]; cbn [falsy_distance].
      * specialize (Hsome n eq_refl). injection Hsome as ->.
        destruct (n =? 0).
        -- exists None. split; [reflexivity|]. split; discriminate.
        -- exists (Some (distance + n)). split; [reflexivity|].
           split; [now intros ? [= <-]|discriminate].
      * exists None. split; [reflexivity|]. split; discriminate.
    + rewrite (Hnone eq_refl). cbn [falsy_distance]. exists None.
      split; [reflexivity|]. split; [discriminate|reflexivity].
Qed.

Lemma get_route_distance_sound_witness :
  exists r,
    get_route_distance reference_map "A" ["E"; "B"; "C"; "D"] = Ret r
    /\ (forall n, r = Some n ->
                  walk_distance reference_map "A" ["E"; "B"; "C"; "D"] = Some n)
    /\ (walk_distance reference_map "A" ["E"; "B"; "C"; "D"] = None -> r = None).
Proof.
  apply (get_route_distance_sound reference_map).
  - reflexivity.
  - discriminate.
  - reflexivity.
  - repeat constructor.
Defined.

(** ** Stop-bounded search: what it returns *)

Section StopSearchSound.
Variable routes : graph.
Hypothesis Hwf : well_formed routes = true.

Lemma good_stop_route_step (origin next_stop destination : station)
  (from_origin : Dict.t Z) (distance stops : Z) (mode : FindModes.t)
  (path : list station) (subroute : Z) :
  Dict.get origin routes = Some from_origin ->
  In (next_stop, distance) from_origin ->
  good_stop_route routes next_stop destination (stops - 1) mode
    (path, subroute) ->
  good_stop_route routes origin destination stops mode
    (origin :: path, distance + subroute).
Proof.
  intros Hget Hin (rest & Hpath & Hne & Hlast & Hwalk & Hlen).
  cbn [fst snd] in *. subst path.
  destruct (well_formed_edge routes Hwf _ _ _ _ Hget Hin) as (Hedge & _).
  exists (next_stop :: rest). cbn [fst snd]. split; [reflexivity|].
  split; [discriminate|]. split; [now rewrite last_cons|]. split.
  - cbn [walk_distance]. now rewrite Hget, Hedge, Hwalk.
  - cbn [List.length]. destruct mode; lia.
Qed.

Lemma find_routes_by_stops_good (fuel : nat) :
  forall origin destination stops mode found,
    find_routes_by_stops fuel routes origin destination stops mode = Ret found ->
    Forall (good_stop_route routes origin destination stops mode) found.
Proof.
  induction fuel as [|fuel IH]; intros origin destination stops mode found;
    cbn [find_routes_by_stops]; [discriminate|].
  destruct (Str.falsy origin || Str.falsy destination); [discriminate|].
  destruct (Dict.get origin routes) as [from_origin|] eqn:Hget; [|discriminate].
  assert (Hsearch : forall found,
    (if negb (stops =? 1) && (List.length from_origin =? 0)%nat then Ret []
     else
       for_each from_origin
         (fun '(next_stop, distance) found =>
            subroutes <-
              find_routes_by_stops fuel routes next_stop destination
                (stops - 1) mode ;;
            Ret (found ++
                 map (fun '(path, subroute) =>
                        (origin :: path, distance + subroute))
                     subroutes))
         []) = Ret found ->
    Forall (good_stop_route routes origin destination stops mode) found).
  { clear found. intros found.
    destruct (negb (stops =? 1) && _); [now intros [= <-]|].
    apply for_each_invariant; [|constructor].
    intros [next_stop distance] acc acc' Hin Hacc.
    destruct (find_routes_by_stops fuel routes next_stop destination _ mode)
      as [subroutes|e] eqn:Hsub; [|discriminate].
    cbn [bind]. intros [= <-]. apply IH in Hsub.
    apply Forall_app. split; [exact Hacc|]. apply Forall_map.
    eapply Forall_impl; [|exact Hsub]. intros [path subroute].
    now apply good_stop_route_step with from_origin. }
  destruct ((FindModes.eqb mode FindModes.max && (stops >=? 1))
            || (FindModes.eqb mode FindModes.exact && (stops =? 1))) eqn:Hfirst;
    [|apply Hsearch].
  destruct (Dict.get destination from_origin) as [distance|] eqn:Hedge.
  - intros [= <-]. constructor; [|constructor].
    exists [destination]. cbn [fst snd]. split; [reflexivity|].
    split; [discriminate|]. split; [reflexivity|]. split.
    + cbn [walk_distance]. rewrite Hget, Hedge. f_equal. lia.
    + cbn [List.length]. destruct mode; cbn [FindModes.eqb andb orb] in Hfirst.
      * rewrite orb_false_r, Z.geb_leb in Hfirst. apply Z.leb_le in Hfirst.
        lia.
      * apply Z.eqb_eq in Hfirst. lia.
  - destruct (FindModes.eqb mode FindModes.exact); [now intros [= <-]|].
    apply Hsearch.
Qed.
End StopSearchSound.

(** X8: every result of [find_routes_by_stops] is a pair of a path and a
    distance in which the path starts at the origin, ends at the
    destination and follows edges of the map, the distance is the sum of
    the distances of these edges, and the number of edges is between 1 and
    [stops] in mode [max] and equal to [stops] in mode [exact]; so a call
    with no stop left that returns, returns the empty list. *)
Theorem find_routes_by_stops_sound (fuel : nat) (routes : graph)
  (origin destination : station) (stops : Z) (mode : FindModes.t)
  (found : list stop_route) :
  well_formed routes = true ->
  find_routes_by_stops fuel routes origin destination stops mode = Ret found ->
  (forall path total,
      In (path, total) found ->
      exists rest,
        path = origin :: rest
        /\ rest <> []
        /\ last rest origin = destination
        /\ walk_distance routes origin rest = Some total
        /\ match mode with
           | FindModes.max => 1 <= Z.of_nat (List.length rest) <= stops
           | FindModes.exact => Z.of_nat (List.length rest) = stops
           end)
  /\ (stops <= 0 -> found = []).
Proof.
  intros Hwf Hrun.
  pose proof (find_routes_by_stops_good routes Hwf fuel _ _ _ _ _ Hrun) as Hall.
  rewrite Forall_forall in Hall. split.
  - intros path total Hin. exact (Hall _ Hin).
  - intros Hstops. destruct found as [|[path total] found]; [reflexivity|].
    destruct (Hall (path, total) (or_introl eq_refl))
      as (rest & _ & Hne & _ & _ & Hlen).
    destruct rest; [congruence|]. cbn [List.length] in Hlen.
    destruct mode; lia.
Qed.

Lemma find_routes_by_stops_sound_witness :
  (forall path total,
      In (path, total)
         [(["A"; "B"; "C"; "D"; "C"], 25); (["A"; "D"; "C"; "D"; "C"], 29);
          (["A"; "D"; "E"; "B"; "C"], 18)] ->
      exists rest,
        path = "A" :: rest
        /\ rest <> []
        /\ last rest "A" = "C"
        /\ walk_distance reference_map "A" rest = Some total
        /\ Z.of_nat (List.length rest) = 4)
  /\ (4 <= 0 ->
      [(["A"; "B"; "C"; "D"; "C"], 25); (["A"; "D"; "C"; "D"; "C"], 29);
       (["A"; "D"; "E"; "B"; "C"], 18)] = []).
Proof.
  apply (find_routes_by_stops_sound 5 reference_map "A" "C" 4 FindModes.exact).
  - reflexivity.
  - reflexivity.
Defined.

(** A loop that only adds results keeps the result that one of its
    iterations adds. *)
Lemma for_each_member {A B : Type} (xs : list A)
  (body : A -> list B -> result (list B)) (r : B) (x : A) :
  (forall y s s', body y s = Ret s' -> In r s -> In r s') ->
  (forall s s', body x s = Ret s' -> In r s') ->
  In x xs ->
  forall s s', for_each xs body s = Ret s' -> In r s'.
Proof.
  intros Hkeep Hadd. induction xs as [|y rest IH]; intros Hin s s';
    [destruct Hin|].
  cbn [for_each]. destruct (body y s) as [s1|e] eqn:Hy; [|discriminate].
  cbn [bind]. destruct Hin as [->|Hin]; [|now apply IH].
  apply (for_each_invariant (fun s => In r s)); [|exact (Hadd _ _ Hy)].
  intros z t t' _ Ht Hz. exact (Hkeep _ _ _ Hz Ht).
Qed.

Section ExactSearch.
Variable routes : graph.
Hypothesis Hwf : well_formed routes = true.
Variable destination : station.
Hypothesis Hdestination : Str.falsy destination = false.

(** In mode [exact] with at least one stop, a depth of [stops] calls is
    enough, and every walk of exactly [stops] edges is among the results. *)
Lemma find_routes_by_stops_exact (fuel : nat) :
  forall origin stops,
    Dict.mem origin routes = true ->
    1 <= stops ->
    (Z.to_nat stops <= fuel)%nat ->
    exists found,
      find_routes_by_stops fuel routes origin destination stops FindModes.exact
      = Ret found
      /\ forall path total,
           Z.of_nat (List.length path) = stops ->
           last path origin = destination ->
           walk_distance routes origin path = Some total ->
           In (origin :: path, total) found.
Proof.
  induction fuel as [|fuel IH]; intros origin stops Horigin Hstops Hfuel;
    [lia|].
  destruct (mem_get _ _ Horigin) as [from_origin Hget].
  destruct (well_formed_entry routes Hwf _ _ Hget) as (Ho & _ & Hclosed).
  cbn [find_routes_by_stops]. rewrite Ho, Hdestination, Hget.
  cbn [orb FindModes.eqb andb].
  destruct (Z.eqb_spec stops 1) as [->|Hmore].
  - (* one stop: the direct edge or nothing *)
    destruct (Dict.get destination from_origin) as [distance|] eqn:Hedge;
      eexists; (split; [reflexivity|]); intros path total Hlen Hlast Hwalk;
      destruct path as [|stop [|? ?]]; cbn [List.length] in Hlen; try lia;
      cbn [last] in Hlast; subst stop; cbn [walk_distance] in Hwalk;
      rewrite Hget, Hedge in Hwalk; [|discriminate].
    injection Hwalk as <-. left. f_equal. lia.
  - cbn [negb andb].
    destruct (List.length from_origin =? 0)%nat eqn:Hempty.
    + apply Nat.eqb_eq, length_zero_iff_nil in Hempty. subst from_origin.
      exists []. split; [reflexivity|]. intros path total Hlen _ Hwalk.
      destruct path as [|stop rest]; cbn [List.length] in Hlen; [lia|].
      cbn [walk_distance] in Hwalk. rewrite Hget in Hwalk. discriminate.
    + assert (Hcalls : forall next_stop distance,
                 In (next_stop, distance) from_origin ->
                 exists subroutes,
                   find_routes_by_stops fuel routes next_stop destination
                     (stops - 1) FindModes.exact = Ret subroutes
                   /\ forall path total,
                        Z.of_nat (List.length path) = stops - 1 ->
                        last path next_stop = destination ->
                        walk_distance routes next_stop path = Some total ->
                        In (next_stop :: path, total) subroutes).
      { intros next_stop distance Hin.
        apply IH; [exact (Hclosed _ _ Hin)|lia|lia]. }
      destruct (for_each_returns (fun _ => True) from_origin
        (fun '(next_stop, distance) found =>
           subroutes <-
             find_routes_by_stops fuel routes next_stop destination
               (stops - 1) FindModes.exact ;;
           Ret (found ++
                map (fun '(path, subroute) =>
                       (origin :: path, distance + subroute))
                    subroutes))) with (s := @nil stop_route)
        as (found & Hrun & _); [|exact I|].
      { intros [next_stop distance] acc Hin _.
        destruct (Hcalls _ _ Hin) as (subroutes & -> & _). cbn [bind].
        now eexists. }
      exists found. split; [exact Hrun|].
      intros path total Hlen Hlast Hwalk.
      destruct path as [|stop rest]; cbn [List.length] in Hlen; [lia|].
      cbn [walk_distance] in Hwalk. rewrite Hget in Hwalk.
      destruct (Dict.get stop from_origin) as [distance|] eqn:Hedge;
        [|discriminate].
      destruct (walk_distance routes stop rest) as [subtotal|] eqn:Hrest;
        [|discriminate].
      injection Hwalk as <-. rewrite last_cons in Hlast.
      pose proof (get_in _ _ _ Hedge) as Hin.
      destruct (Hcalls _ _ Hin) as (subroutes & Hsub & Hcomplete).
      specialize (Hcomplete rest subtotal ltac:(lia) Hlast Hrest).
      refine (for_each_member from_origin _
                (origin :: stop :: rest, distance + subtotal) (stop, distance)
                _ _ Hin [] found Hrun).
      * intros [next_stop distance'] acc acc' Hbody Hacc.
        destruct (find_routes_by_stops fuel routes next_stop destination _ _);
          [|discriminate].
        cbn [bind] in Hbody. injection Hbody as <-. apply in_app_iff. now left.
      * intros acc acc' Hbody. rewrite Hsub in Hbody. cbn [bind] in Hbody.
        injection Hbody as <-. apply in_app_iff. right.
        apply in_map_iff. now exists (stop :: rest, subtotal).
Qed.
End ExactSearch.

(** X9: in mode [exact], with at least one stop, [find_routes_by_stops]
    returns as soon as [stops] nested calls are allowed, and its results
    are all the walks of exactly [stops] edges from the origin to the
    destination: each of them is in the list with its distance. *)
Theorem find_routes_by_stops_exact_complete (fuel : nat) (routes : graph)
  (origin destination : station) (stops : Z) :
  well_formed routes = true ->
  Dict.mem origin routes = true ->
  Str.falsy destination = false ->
  1 <= stops ->
  (Z.to_nat stops <= fuel)%nat ->
  exists found,
    find_routes_by_stops fuel routes origin destination stops FindModes.exact
    = Ret found
    /\ forall path total,
         Z.of_nat (List.length path) = stops ->
         last path origin = destination ->
         walk_distance routes origin path = Some total ->
         In (origin :: path, total) found.
Proof.
  intros Hwf Horigin Hdestination Hstops Hfuel.
  now apply find_routes_by_stops_exact.
Qed.

Lemma find_routes_by_stops_exact_complete_witness :
  exists found,
    find_routes_by_stops 4 reference_map "A" "C" 4 FindModes.exact = Ret found
    /\ forall path total,
         Z.of_nat (List.length path) = 4 ->
         last path "A" = "C" ->
         walk_distance reference_map "A" path = Some total ->
         In ("A" :: path, total) found.
Proof.
  apply (find_routes_by_stops_exact_complete 4 reference_map "A" "C" 4).
  - reflexivity.
  - reflexivity.
  - reflexivity.
  - lia.
  - vm_compute. lia.
Defined.

(** ** Distance-bounded search: what it finds *)

Section DistanceSearchComplete.
Variable routes : graph.
Hypothesis Hwf : well_formed routes = true.
Hypothesis Hpos : positive routes = true.
Variable destination : station.

(** Every walk to the destination that stays strictly below the bound is
    in the list that the search returns. *)
Lemma find_routes_by_distance_finds (fuel : nat) :
  forall origin max_distance found stops total,
    find_routes_by_distance fuel routes origin destination max_distance
    = Ret found ->
    stops <> [] ->
    last stops origin = destination ->
    walk_distance routes origin stops = Some total ->
    total < max_distance ->
    In (map Stop (origin :: stops) ++ [Total total]) found.
Proof.
  induction fuel as [|fuel IH];
    intros origin max_distance found stops total; cbn [find_routes_by_distance];
    [discriminate|].
  destruct (Str.falsy origin || Str.falsy destination); [discriminate|].
  destruct (Dict.get origin routes) as [from_origin|] eqn:Hget; [|discriminate].
  intros Hrun Hne Hlast Hwalk Hlt.
  destruct stops as [|stop rest]; [congruence|]. clear Hne.
  cbn [walk_distance] in Hwalk. rewrite Hget in Hwalk.
  destruct (Dict.get stop from_origin) as [distance|] eqn:Hedge; [|discriminate].
  destruct (walk_distance routes stop rest) as [subtotal|] eqn:Hrest;
    [|discriminate].
  injection Hwalk as <-. rewrite last_cons in Hlast.
  pose proof (get_in _ _ _ Hedge) as Hin.
  refine (for_each_member from_origin _ _ (stop, distance) _ _ Hin [] found Hrun).
  - (* every iteration keeps what was found *)
    intros [stop' distance'] acc acc' Hbody Hacc. cbv beta iota zeta in Hbody.
    assert (Hacc1 : In (map Stop (origin :: stop :: rest)
                          ++ [Total (distance + subtotal)])
                       (if String.eqb stop' destination
                           && (distance' <? max_distance)
                        then acc ++ [[Stop origin; Stop stop'; Total distance']]
                        else acc)).
    { destruct (String.eqb stop' destination && (distance' <? max_distance));
        [apply in_app_iff; now left|exact Hacc]. }
    revert Hbody Hacc1.
    generalize (if String.eqb stop' destination && (distance' <? max_distance)
                then acc ++ [[Stop origin; Stop stop'; Total distance']]
                else acc).
    intros acc1 Hbody Hacc1.
    destruct (max_distance - distance' >? 0); [|now injection Hbody as <-].
    destruct (find_routes_by_distance fuel routes stop' destination _)
      as [subroutes|e]; [|discriminate].
    cbn [bind] in Hbody. revert Hbody.
    apply (for_each_invariant
             (fun s => In (map Stop (origin :: stop :: rest)
                             ++ [Total (distance + subtotal)]) s));
      [|exact Hacc1].
    intros subroute s s' _ Hs Hsub. destruct subroute as [|x l];
      [now injection Hsub as <-|].
    destruct (add_to_last distance' (Stop origin :: x :: l)); [|discriminate].
    cbn [bind] in Hsub. injection Hsub as <-. apply in_app_iff. now left.
  - (* the iteration of the first edge of the walk adds it *)
    intros acc acc' Hbody. cbv beta iota zeta in Hbody.
    destruct rest as [|next rest].
    + (* a walk of one edge *)
      cbn [walk_distance] in Hrest. injection Hrest as <-.
      cbn [last] in Hlast. subst destination.
      rewrite String.eqb_refl in Hbody.
      replace (distance <? max_distance) with true in Hbody
        by (symmetry; apply Z.ltb_lt; lia).
      cbn [andb] in Hbody.
      assert (Hacc1 : In (map Stop [origin; stop] ++ [Total (distance + 0)])
                         (acc ++ [[Stop origin; Stop stop; Total distance]])).
      { apply in_app_iff. right. left. cbn [map app]. now rewrite Z.add_0_r. }
      revert Hbody Hacc1.
      generalize (acc ++ [[Stop origin; Stop stop; Total distance]]).
      intros acc1 Hbody Hacc1.
      destruct (max_distance - distance >? 0); [|now injection Hbody as <-].
      destruct (find_routes_by_distance fuel routes stop stop _)
        as [subroutes|e]; [|discriminate].
      cbn [bind] in Hbody. revert Hbody.
      apply (for_each_invariant
               (fun s => In (map Stop [origin; stop] ++ [Total (distance + 0)])
                            s)); [|exact Hacc1].
      intros subroute s s' _ Hs Hsub. destruct subroute as [|x l];
        [now injection Hsub as <-|].
      destruct (add_to_last distance (Stop origin :: x :: l)); [|discriminate].
      cbn [bind] in Hsub. injection Hsub as <-. apply in_app_iff. now left.
    + (* a longer walk: its tail is found from the next station *)
      destruct (walk_distance_positive routes Hpos _ _ _ Hrest) as [_ Hsubpos].
      specialize (Hsubpos ltac:(discriminate)).
      revert Hbody.
      generalize (if String.eqb stop destination && (distance <? max_distance)
                  then acc ++ [[Stop origin; Stop stop; Total distance]]
                  else acc).
      intros acc1 Hbody.
      replace (max_distance - distance >? 0) with true in Hbody
        by (symmetry; apply Z.gtb_lt; lia).
      destruct (find_routes_by_distance fuel routes stop destination _)
        as [subroutes|e] eqn:Hsub; [|discriminate].
      cbn [bind] in Hbody.
      pose proof (IH stop (max_distance - distance) subroutes (next :: rest)
                    subtotal Hsub ltac:(discriminate) Hlast Hrest ltac:(lia))
        as Hfound.
      refine (for_each_member subroutes _ _ _ _ _ Hfound acc1 acc' Hbody).
      * intros subroute s s' Hstep Hs. destruct subroute as [|x l];
          [now injection Hstep as <-|].
        destruct (add_to_last distance (Stop origin :: x :: l)); [|discriminate].
        cbn [bind] in Hstep. injection Hstep as <-. apply in_app_iff. now left.
      * intros s s' Hstep.
        change (Stop origin :: map Stop (stop :: next :: rest) ++ [Total subtotal])
          with (map Stop (origin :: stop :: next :: rest) ++ [Total subtotal])
          in Hstep.
        cbn [map app] in Hstep.
        change (Stop origin :: Stop stop :: Stop next
                  :: map Stop rest ++ [Total subtotal])
          with (map Stop (origin :: stop :: next :: rest) ++ [Total subtotal])
          in Hstep.
        rewrite add_to_last_total in Hstep. cbn [bind] in Hstep.
        injection Hstep as <-. apply in_app_iff. right. left.
        cbn [map app]. now rewrite (Z.add_comm subtotal distance).
Qed.
End DistanceSearchComplete.

(** X10: with strictly positive distances [find_routes_by_distance] misses
    nothing: every walk of at least one edge from the origin to the
    destination whose total distance is strictly below [max_distance] is in
    the list returned, as the stations followed by the total. *)
Theorem find_routes_by_distance_complete (fuel : nat) (routes : graph)
  (origin destination : station) (max_distance : Z)
  (found : list (list item)) (stops : list station) (total : Z) :
  well_formed routes = true ->
  positive routes = true ->
  find_routes_by_distance fuel routes origin destination max_distance
  = Ret found ->
  stops <> [] ->
  last stops origin = destination ->
  walk_distance routes origin stops = Some total ->
  total < max_distance ->
  In (map Stop (origin :: stops) ++ [Total total]) found.
Proof.
  intros Hwf Hpos. now apply find_routes_by_distance_finds.
Qed.

Lemma find_routes_by_distance_complete_witness :
  In (map Stop ("A" :: ["C"; "A"; "C"]) ++ [Total 8])
     [[Stop "A"; Stop "C"; Total 2];
      [Stop "A"; Stop "C"; Stop "A"; Stop "C"; Total 8];
      [Stop "A"; Stop "C"; Stop "A"; Stop "C"; Stop "A"; Stop "C"; Total 14]].
Proof.
  apply (find_routes_by_distance_complete 16 test_map "A" "C" 15).
  - reflexivity.
  - reflexivity.
  - vm_compute. reflexivity.
  - discriminate.
  - reflexivity.
  - reflexivity.
  - lia.
Defined.

(** X11: a bound that no edge can stay below.  With strictly positive
    distances and [max_distance <= 1], [find_routes_by_distance] returns the
    empty list without a single recursive call: a depth of one call is
    enough, whatever cycles the map has. *)
Theorem find_routes_by_distance_small_bound (fuel : nat) (routes : graph)
  (origin destination : station) (max_distance : Z) :
  well_formed routes = true ->
  positive routes = true ->
  Dict.mem origin routes = true ->
  Str.falsy destination = false ->
  max_distance <= 1 ->
  find_routes_by_distance (S fuel) routes origin destination max_distance
  = Ret [].
Proof.
  intros Hwf Hpos Horigin Hdestination Hbound.
  destruct (mem_get _ _ Horigin) as [from_origin Hget].
  destruct (well_formed_entry routes Hwf _ _ Hget) as (Ho & _).
  cbn [find_routes_by_distance]. rewrite Ho, Hdestination, Hget. cbn [orb].
  match goal with
  | |- for_each _ ?body _ = _ =>
      destruct (for_each_returns (fun acc => acc = []) from_origin body)
        with (s := @nil (list item)) as (found & Hrun & ->);
      [|reflexivity|exact Hrun]
  end.
  intros [stop distance] acc Hin ->. cbv beta iota zeta.
  pose proof (positive_edge _ _ _ _ _ Hpos Hget Hin) as Hd.
  replace (distance <? max_distance) with false
    by (symmetry; apply Z.ltb_ge; lia).
  replace (max_distance - distance >? 0) with false
    by (symmetry; rewrite Z.gtb_ltb; apply Z.ltb_ge; lia).
  rewrite andb_false_r. now exists [].
Qed.

Lemma find_routes_by_distance_small_bound_witness :
  find_routes_by_distance 1 test_map "A" "B" 0 = Ret [].
Proof.
  apply (find_routes_by_distance_small_bound 0 test_map "A" "B" 0).
  - reflexivity.
  - reflexivity.
  - reflexivity.
  - reflexivity.
  - lia.
Defined.

(** ** The queries on maps with strictly positive distances *)

(** X12: with strictly positive distances, for a known origin and non-empty
    station names, [get_route_distance] returns the sum of the distances
    along the stations given when every consecutive pair has an edge, and
    None exactly when some pair has none. *)
Theorem get_route_distance_exact (routes : graph) (origin : station)
  (destinations : list station) :
  well_formed routes = true ->
  positive routes = true ->
  destinations <> [] ->
  Dict.mem origin routes = true ->
  Forall (fun s => Str.falsy s = false) destinations ->
  get_route_distance routes origin destinations
  = Ret (walk_distance routes origin destinations).
Proof.
  intros Hwf Hpos. now apply get_route_distance_positive.
Qed.

Lemma get_route_distance_exact_witness :
  get_route_distance reference_map "A" ["E"; "D"]
  = Ret (walk_distance reference_map "A" ["E"; "D"]).
Proof.
  apply (get_route_distance_exact reference_map "A" ["E"; "D"]).
  - reflexivity.
  - reflexivity.
  - discriminate.
  - reflexivity.
  - repeat constructor.
Defined.

(** X13: in mode [max], one more stop never loses a result: whenever the
    searches with [stops >= 1] and with [stops + 1] both return, the second
    list is at least as long as the first. *)
Theorem find_routes_by_stops_more_stops (fuel : nat) (routes : graph)
  (origin destination : station) (stops : Z) (found found' : list stop_route) :
  1 <= stops ->
  find_routes_by_stops fuel routes origin destination stops FindModes.max
  = Ret found ->
  find_routes_by_stops fuel routes origin destination (stops + 1) FindModes.max
  = Ret found' ->
  (List.length found <= List.length found')%nat.
Proof. apply find_routes_by_stops_count_monotone. Qed.

Lemma find_routes_by_stops_more_stops_witness :
  (List.length [(["C"; "D"; "C"], 16%Z); (["C"; "E"; "B"; "C"], 9%Z)]
   <= List.length [(["C"; "D"; "C"], 16%Z); (["C"; "E"; "B"; "C"], 9%Z)])%nat.
Proof.
  apply (find_routes_by_stops_more_stops 4 reference_map "C" "C" 3).
  - lia.
  - reflexivity.
  - reflexivity.
Defined.

(** X14: whenever [shortest_route] returns, on a map with strictly positive
    distances, the value is right: +infinity means that no walk of at
    least one edge leads from the origin to the destination, and a number
    is the distance of such a walk and is not above the distance of any
    other, so it is at least 1 even from a station to itself. *)
Theorem shortest_route_returns_minimum (fuel : nat) (routes : graph)
  (origin destination : station) (result : number) :
  positive routes = true ->
  shortest_route fuel routes origin destination = Some (Ret result) ->
  match result with
  | Inf => forall stops total, ~ walk_to routes origin destination stops total
  | Int n =>
      (exists stops, walk_to routes origin destination stops n)
      /\ (forall stops total,
             walk_to routes origin destination stops total -> n <= total)
      /\ 1 <= n
  end.
Proof.
  intros Hpos Hrun.
  destruct (shortest_route_minimum routes Hpos _ _ _ _ Hrun) as [Hmin Hwalk].
  destruct result as [n|].
  - split; [exact Hwalk|]. split.
    + intros stops total Hw. specialize (Hmin _ _ Hw). cbn [less_than] in Hmin.
      now apply Z.ltb_ge in Hmin.
    + destruct Hwalk as (stops & Hne & _ & Hw).
      destruct (walk_distance_positive routes Hpos _ _ _ Hw) as [_ Hlt].
      specialize (Hlt Hne). lia.
  - intros stops total Hw. specialize (Hmin _ _ Hw). discriminate.
Qed.

Lemma shortest_route_returns_minimum_witness :
  (exists stops, walk_to reference_map "B" "B" stops 9)
  /\ (forall stops total, walk_to reference_map "B" "B" stops total -> 9 <= total)
  /\ 1 <= 9.
Proof.
  apply (shortest_route_returns_minimum 200 reference_map "B" "B" (Int 9)).
  - reflexivity.
  - vm_compute. reflexivity.
Defined.

(** ** The dictionary of the class *)

(** X15: the dictionary of the class stays well-formed.  If it holds no
    key twice, no empty station name and an entry for every destination,
    then it still does after [Railway(routes)], whether the construction
    succeeds or raises half way; it does at start-up, so every dictionary
    the class ever holds is such a map. *)
Theorem construction_keeps_well_formed (st : interpreter) (routes : routes_arg) :
  well_formed (class_routes st) = true ->
  well_formed (class_routes (fst (Railway st routes))) = true
  /\ well_formed (class_routes startup) = true.
Proof.
  intros Hwf. split; [|reflexivity]. unfold Railway, add_routes, self_routes.
  destruct routes as [s|l|]; cbn [class_routes]; [| |exact Hwf].
  - pose proof (add_routes_dict_well_formed
                  (map Str.strip (Str.split_comma s)) _ Hwf) as H.
    destruct (add_routes_dict _ _) as [routes r]. exact H.
  - pose proof (add_routes_dict_well_formed (map Str.strip l) _ Hwf) as H.
    destruct (add_routes_dict _ _) as [routes r]. exact H.
Qed.

Lemma construction_keeps_well_formed_witness :
  well_formed
    (class_routes (fst (Railway startup (ArgStr "AB1, AC2, zA4, CD1")))) = true
  /\ well_formed (class_routes startup) = true.
Proof.
  apply (construction_keeps_well_formed startup (ArgStr "AB1, AC2, zA4, CD1")).
  reflexivity.
Defined.


(** ** Insertion, then a query *)

(** X16: a route that has been added is found.  After the iteration of
    [add_routes] for a route from [origin] to [destination],
    [get_route_distance(origin, destination)] returns its distance, whatever
    the map held before and even when the distance is 0. *)
Theorem added_route_is_found (routes : graph) (origin destination : station)
  (distance : Z) :
  Str.falsy origin = false ->
  Str.falsy destination = false ->
  get_route_distance (add_route routes origin destination distance) origin
    [destination]
  = Ret (Some distance).
Proof.
  intros Ho Hd.
  pose proof (proj1 (add_route_edges routes origin destination distance)
                origin destination) as Hedge.
  rewrite !String.eqb_refl in Hedge. unfold edge_distance in Hedge.
  cbn [get_route_distance]. rewrite Ho, Hd. cbn [orb].
  destruct (Dict.get origin (add_route routes origin destination distance));
    [|discriminate].
  cbn [andb] in Hedge. now rewrite Hedge.
Qed.

Lemma added_route_is_found_witness :
  get_route_distance (add_route test_map "B" "C" 0) "B" ["C"] = Ret (Some 0).
Proof.
  apply (added_route_is_found test_map "B" "C" 0); reflexivity.
Defined.

(** ** Stop-bounded search: what mode [max] leaves out *)

Section MaxSearchShortcuts.
Variable routes : graph.
Hypothesis Hwf : well_formed routes = true.
Variable destination : station.

Lemma find_routes_by_stops_max_shortcuts (fuel : nat) :
  forall origin stops found,
    find_routes_by_stops fuel routes origin destination stops FindModes.max
    = Ret found ->
    Forall (fun route =>
              exists path,
                fst route = origin :: path
                /\ path <> []
                /\ no_shortcut routes destination origin path)
           found.
Proof.
  induction fuel as [|fuel IH]; intros origin stops found Hrun;
    [discriminate|].
  pose proof (find_routes_by_stops_good routes Hwf _ _ _ _ _ _ Hrun) as Hgood.
  cbn [find_routes_by_stops] in Hrun.
  destruct (Str.falsy origin || Str.falsy destination); [discriminate|].
  destruct (Dict.get origin routes) as [from_origin|] eqn:Hget; [|discriminate].
  cbn [FindModes.eqb andb orb] in Hrun. rewrite orb_false_r in Hrun.
  destruct (stops >=? 1) eqn:Hstops.
  - destruct (Dict.get destination from_origin) as [distance|] eqn:Hedge.
    + injection Hrun as <-. constructor; [|constructor].
      exists [destination]. cbn [fst no_shortcut]. repeat split. discriminate.
    + destruct (negb (stops =? 1) && _); [injection Hrun as <-; constructor|].
      revert Hrun. apply for_each_invariant; [|constructor].
      intros [next_stop distance] acc acc' _ Hacc.
      destruct (find_routes_by_stops fuel routes next_stop destination _ _)
        as [subroutes|e] eqn:Hsub; [|discriminate].
      cbn [bind]. intros [= <-]. apply IH in Hsub.
      apply Forall_app. split; [exact Hacc|]. apply Forall_map.
      eapply Forall_impl; [|exact Hsub].
      intros [path subroute] (rest & Hpath & Hne & Hshort).
      cbn [fst] in *. subst path. exists (next_stop :: rest). cbn [fst].
      split; [reflexivity|]. split; [discriminate|].
      cbn [no_shortcut]. destruct rest; [congruence|].
      split; [|exact Hshort]. unfold edge_distance. now rewrite Hget.
  - (* no stop left: nothing is found *)
    rewrite Z.geb_leb in Hstops. apply Z.leb_gt in Hstops.
    destruct found as [|route found]; [constructor|].
    apply Forall_inv in Hgood. destruct Hgood as (path & _ & Hne & _ & _ & Hlen).
    destruct path; [congruence|]. cbn [List.length] in Hlen. lia.
Qed.
End MaxSearchShortcuts.

(** X17: in mode [max] the search stops at the first station from which
    the destination is one edge away, at every depth.  In a path that it
    returns, no station before the last two has an edge to the destination:
    a walk that passes such a station and goes on is never reported. *)
Theorem find_routes_by_stops_max_takes_first_edge (fuel : nat) (routes : graph)
  (origin destination : station) (stops : Z) (found : list stop_route)
  (path : list station) (total : Z) :
  well_formed routes = true ->
  find_routes_by_stops fuel routes origin destination stops FindModes.max
  = Ret found ->
  In (path, total) found ->
  exists rest,
    path = origin :: rest
    /\ rest <> []
    /\ no_shortcut routes destination origin rest.
Proof.
  intros Hwf Hrun Hin.
  pose proof (find_routes_by_stops_max_shortcuts routes Hwf destination fuel
                _ _ _ Hrun) as Hall.
  rewrite Forall_forall in Hall. exact (Hall _ Hin).
Qed.

Lemma find_routes_by_stops_max_takes_first_edge_witness :
  exists rest,
    ["C"; "E"; "B"; "C"] = "C" :: rest
    /\ rest <> []
    /\ no_shortcut reference_map "C" "C" rest.
Proof.
  apply (find_routes_by_stops_max_takes_first_edge 4 reference_map "C" "C" 3
           [(["C"; "D"; "C"], 16); (["C"; "E"; "B"; "C"], 9)]
           ["C"; "E"; "B"; "C"] 9).
  - reflexivity.
  - reflexivity.
  - simpl. tauto.
Defined.
